(** * QDirStat read-job engine: a shallow embedding of
      [DirReadJob.cpp] and [pkg/PkgReader.cpp].

    Heap objects (tree nodes, read jobs) live in finite maps keyed by their
    address; the job queue holds addresses, so that a deleted job whose
    address is still stored in a list is visible as a dangling entry.  Qt
    signals and the one error log line of [DirReadJob::finished] are
    recorded in an event trace. *)

From stdpp Require Import gmap strings list.
From Stdlib Require Import ZArith Sorting.Sorted.

Open Scope string_scope.
Open Scope list_scope.
Open Scope Z_scope.

(** ** Data model *)

Definition ptr := nat.

(** [DirReadState] as used by the jobs (DirTree.h is outside the sources
    at hand; the constructors are those the jobs mention). *)
Inductive DirReadState :=
| DirQueued
| DirReading
| DirFinished
| DirOnRequestOnly
| DirAborted
| DirError.

#[global] Instance DirReadState_eq_dec : EqDecision DirReadState.
Proof. solve_decision. Defined.

Inductive NodeKind := IsDirInfo | IsFileInfo | IsPkgInfo.

#[global] Instance NodeKind_eq_dec : EqDecision NodeKind.
Proof. solve_decision. Defined.

(** A tree node: [FileInfo] and its subclasses [DirInfo] and [PkgInfo]. *)
Record FileInfo := mkFileInfo {
  kind         : NodeKind;
  name         : string;
  url          : string;
  parent       : option ptr;
  children     : list ptr;        (* in insertion order *)
  device       : Z;               (* st_dev *)
  mode         : Z;
  size         : Z;
  mtime        : Z;
  readState    : DirReadState;
  isMountPoint : bool;
  isExcluded   : bool;
  isFinalized  : bool             (* finalizeLocal() has run *)
}.

(** Modelled from the spec: [CacheReader] (DirTreeCache.h) is not among the
    sources.  The reader is a cursor over the lines of a cache file whose
    header names [firstDir]; [read n] consumes at most [n] lines. *)
Record CacheReader := mkCacheReader {
  cr_ok       : bool;
  cr_firstDir : string;
  cr_lines    : nat;              (* lines in the file *)
  cr_offset   : nat               (* lines consumed so far *)
}.

Definition CacheReader_rewind (r : CacheReader) : CacheReader :=
  mkCacheReader (cr_ok r) (cr_firstDir r) (cr_lines r) 0%nat.

Definition CacheReader_read (n : nat) (r : CacheReader) : CacheReader :=
  if cr_ok r
  then mkCacheReader (cr_ok r) (cr_firstDir r) (cr_lines r)
                     (Nat.min (cr_lines r) (cr_offset r + n))
  else r.

Definition CacheReader_eof (r : CacheReader) : bool :=
  (cr_lines r <=? cr_offset r)%nat.

(** The process attached to a [PkgReadJob]; [readAll] yields its output. *)
Record Process := mkProcess { proc_output : string }.

Inductive JobData :=
| LocalDirReadJob (_dirName : string) (_applyFileChildExcludeRules : bool)
| CacheReadJob (_reader : option CacheReader)
| PkgReadJob (_pkg : ptr) (_readFileListProcess : option Process)
             (_fileList : list string).

(** [DirReadJob]: the base-class members and the subclass payload.
    [_queue] is [true] when the job's queue pointer is set. *)
Record DirReadJob := mkJob {
  _dir     : option ptr;
  _queue   : bool;
  _started : bool;
  jobData  : JobData
}.

Inductive Event :=
| startingReading
| finished
| childAdded (child : ptr)
| deletingChild (child : ptr)
| readJobFinished (dir : ptr)
| finalizeLocal (dir : ptr)
| logErrorNoJobQueue (dir : option ptr).

#[global] Instance Event_eq_dec : EqDecision Event.
Proof. solve_decision. Defined.

(** The tree with its nodes, the [DirReadJobQueue] with the jobs it owns,
    and the trace of what has been emitted so far. *)
Record World := mkWorld {
  nodes     : gmap ptr FileInfo;
  nextNode  : ptr;
  jobs      : gmap ptr DirReadJob;
  nextJob   : ptr;
  q_queue   : list ptr;           (* DirReadJobQueue::_queue *)
  q_blocked : list ptr;           (* DirReadJobQueue::_blocked *)
  q_timer   : bool;               (* _timer.isActive() *)
  events    : list Event
}.

Definition set_nodes (f : gmap ptr FileInfo -> gmap ptr FileInfo) (w : World) :=
  mkWorld (f (nodes w)) (nextNode w) (jobs w) (nextJob w)
          (q_queue w) (q_blocked w) (q_timer w) (events w).
Definition set_nextNode (n : ptr) (w : World) :=
  mkWorld (nodes w) n (jobs w) (nextJob w)
          (q_queue w) (q_blocked w) (q_timer w) (events w).
Definition set_jobs (f : gmap ptr DirReadJob -> gmap ptr DirReadJob) (w : World) :=
  mkWorld (nodes w) (nextNode w) (f (jobs w)) (nextJob w)
          (q_queue w) (q_blocked w) (q_timer w) (events w).
Definition set_nextJob (n : ptr) (w : World) :=
  mkWorld (nodes w) (nextNode w) (jobs w) n
          (q_queue w) (q_blocked w) (q_timer w) (events w).
Definition set_queue (f : list ptr -> list ptr) (w : World) :=
  mkWorld (nodes w) (nextNode w) (jobs w) (nextJob w)
          (f (q_queue w)) (q_blocked w) (q_timer w) (events w).
Definition set_blocked (f : list ptr -> list ptr) (w : World) :=
  mkWorld (nodes w) (nextNode w) (jobs w) (nextJob w)
          (q_queue w) (f (q_blocked w)) (q_timer w) (events w).
Definition set_timer (b : bool) (w : World) :=
  mkWorld (nodes w) (nextNode w) (jobs w) (nextJob w)
          (q_queue w) (q_blocked w) b (events w).
Definition emit (e : Event) (w : World) :=
  mkWorld (nodes w) (nextNode w) (jobs w) (nextJob w)
          (q_queue w) (q_blocked w) (q_timer w) (events w ++ [e]).

Definition emptyWorld : World :=
  mkWorld ∅ 0%nat ∅ 0%nat [] [] false [].

(** What a call appended to the trace. *)
Definition emitted (before after : World) : list Event :=
  drop (length (events before)) (events after).

(** ** QList helpers *)

Fixpoint removeOne (j : ptr) (l : list ptr) : list ptr :=
  match l with
  | [] => []
  | x :: r => if decide (x = j) then r else x :: removeOne j r
  end.

Definition removeAll (j : ptr) (l : list ptr) : list ptr :=
  filter (λ x, x ≠ j) l.

Definition isEmpty {A} (l : list A) : bool :=
  match l with [] => true | _ => false end.

(** ** DirReadJob: construction, destruction, queue binding *)

(** [new ...ReadJob(tree, dir)]: the base constructor leaves [_queue] null. *)
Definition newJob (dir : option ptr) (d : JobData) (w : World) : ptr * World :=
  let j := nextJob w in
  (j, set_nextJob (S j) (set_jobs (insert j (mkJob dir false false d)) w)).

(** [delete job]. *)
Definition deleteJob (j : ptr) (w : World) : World :=
  set_jobs (delete j) w.

Definition setQueue (j : ptr) (b : bool) (w : World) : World :=
  set_jobs (alter (λ job, mkJob (_dir job) b (_started job) (jobData job)) j) w.

Definition jobDir (w : World) (j : ptr) : option ptr :=
  match jobs w !! j with
  | Some job => _dir job
  | None => None
  end.

(** ** DirReadJobQueue *)

Definition enqueue (job : option ptr) (w : World) : World :=
  match job with
  | Some j =>
      let w1 := setQueue j true (set_queue (λ q, q ++ [j]) w) in
      if q_timer w1 then w1
      else set_timer true (emit startingReading w1)
  | None => w
  end.

Definition dequeue (w : World) : option ptr * World :=
  match q_queue w with
  | j :: rest => (Some j, setQueue j false (set_queue (λ _, rest) w))
  | [] => (None, w)
  end.

Definition jobFinishedNotify (job : option ptr) (w : World) : World :=
  let w1 := match job with
            | Some j => deleteJob j (set_queue (removeOne j) w)
            | None => w
            end in
  if isEmpty (q_queue w1) then
    let w2 := set_timer false w1 in
    if isEmpty (q_blocked w2) then emit finished w2 else w2
  else w1.

Definition addBlocked (j : ptr) (w : World) : World :=
  set_blocked (λ b, b ++ [j]) w.

Definition unblock (j : ptr) (w : World) : World :=
  enqueue (Some j) (set_blocked (removeAll j) w).

(** [qDeleteAll] on both lists, then both lists emptied. *)
Definition clear (w : World) : World :=
  let w1 := foldl (λ acc j, deleteJob j acc) w (q_queue w) in
  let w2 := foldl (λ acc j, deleteJob j acc) w1 (q_blocked w) in
  set_blocked (λ _, []) (set_queue (λ _, []) w2).

(** [DirReadJob::finished]: notify the queue when one is set, otherwise
    only an error is logged. *)
Definition DirReadJob_finished (j : ptr) (w : World) : World :=
  match jobs w !! j with
  | Some job =>
      if _queue job then jobFinishedNotify (Some j) w
      else emit (logErrorNoJobQueue (_dir job)) w
  | None => w
  end.

(** ** Tree nodes

    Modelled from the spec: DirTree.h, DirInfo.h and FileInfo.h are not
    among the sources.  The mutators below do what section 3 of the
    specification requires of the node type: [insertChild] links a child
    at the end of the parent's child list, [setReadState] and the flag
    setters update one field, each notification is one trace entry. *)

Definition updNode (f : FileInfo -> FileInfo) (p : ptr) (w : World) : World :=
  set_nodes (alter f p) w.

Definition withReadState (st : DirReadState) (n : FileInfo) : FileInfo :=
  mkFileInfo (kind n) (name n) (url n) (parent n) (children n)
             (device n) (mode n) (size n) (mtime n) st
             (isMountPoint n) (isExcluded n) (isFinalized n).

Definition withMountPoint (n : FileInfo) : FileInfo :=
  mkFileInfo (kind n) (name n) (url n) (parent n) (children n)
             (device n) (mode n) (size n) (mtime n) (readState n)
             true (isExcluded n) (isFinalized n).

Definition withExcluded (n : FileInfo) : FileInfo :=
  mkFileInfo (kind n) (name n) (url n) (parent n) (children n)
             (device n) (mode n) (size n) (mtime n) (readState n)
             (isMountPoint n) true (isFinalized n).

Definition withFinalized (n : FileInfo) : FileInfo :=
  mkFileInfo (kind n) (name n) (url n) (parent n) (children n)
             (device n) (mode n) (size n) (mtime n) (readState n)
             (isMountPoint n) (isExcluded n) true.

Definition withChildren (f : list ptr -> list ptr) (n : FileInfo) : FileInfo :=
  mkFileInfo (kind n) (name n) (url n) (parent n) (f (children n))
             (device n) (mode n) (size n) (mtime n) (readState n)
             (isMountPoint n) (isExcluded n) (isFinalized n).

Definition withParent (par : option ptr) (n : FileInfo) : FileInfo :=
  mkFileInfo (kind n) (name n) (url n) par (children n)
             (device n) (mode n) (size n) (mtime n) (readState n)
             (isMountPoint n) (isExcluded n) (isFinalized n).

Definition setReadState (st : DirReadState) (p : ptr) : World -> World :=
  updNode (withReadState st) p.

Definition setMountPoint (p : ptr) : World -> World :=
  updNode withMountPoint p.

Definition setExcluded (p : ptr) : World -> World :=
  updNode withExcluded p.

Definition finalizeLocalNode (p : ptr) : World -> World :=
  updNode withFinalized p.

Definition addChildLink (c : ptr) (p : ptr) : World -> World :=
  updNode (withChildren (λ cs, cs ++ [c])) p.

Definition setParent (par : option ptr) (p : ptr) : World -> World :=
  updNode (withParent par) p.

(** [parent->insertChild(child)]. *)
Definition insertChild (par child : ptr) (w : World) : World :=
  addChildLink child par (setParent (Some par) child w).

(** [new DirInfo(...)] / [new FileInfo(...)]: a fresh, unlinked node. *)
Definition newNode (n : FileInfo) (w : World) : ptr * World :=
  let p := nextNode w in
  (p, set_nextNode (S p) (set_nodes (insert p n) w)).

Definition sendFinalizeLocal (p : ptr) : World -> World := emit (finalizeLocal p).
Definition sendReadJobFinished (p : ptr) : World -> World := emit (readJobFinished p).
Definition childAddedNotify (p : ptr) : World -> World := emit (childAdded p).

Definition nodeReadState (w : World) (p : ptr) : option DirReadState :=
  readState <$> nodes w !! p.

(** ** PkgReadJob *)

Inductive ExitStatus := NormalExit | CrashExit.

#[global] Instance ExitStatus_eq_dec : EqDecision ExitStatus.
Proof. solve_decision. Defined.

Definition setPkgJob (j : ptr) (proc : option Process) (fl : list string)
    (w : World) : World :=
  set_jobs (alter (λ job,
    match jobData job with
    | PkgReadJob pkg _ _ =>
        mkJob (_dir job) (_queue job) (_started job) (PkgReadJob pkg proc fl)
    | _ => job
    end) j) w.

Section PkgReadJob.

(** [PkgManager::parseFileList] of the package's owning manager. *)
Variable parseFileList : string -> list string.

(** The slot connected to the process's [finished(int, ExitStatus)].
    [CHECK_PTR] on a null process throws before anything is changed. *)
Definition readFileListFinished (j : ptr) (exitCode : Z)
    (exitStatus : ExitStatus) (w : World) : World :=
  match jobs w !! j with
  | Some job =>
      match jobData job with
      | PkgReadJob pkg (Some proc) fl =>
          let ok := true in
          let ok := if decide (exitStatus ≠ NormalExit) then false else ok in
          let ok := if ok && negb (exitCode =? 0) then false else ok in
          if ok then
            let output := proc_output proc in
            let w1 := setPkgJob j (Some proc) (parseFileList output) w in
            unblock j w1
            (* deleteLater(): the process lives until the event loop *)
          else
            let w1 := setReadState DirError pkg w in
            let w2 := sendReadJobFinished pkg w1 in
            let w3 := setPkgJob j None fl w2 in
            DirReadJob_finished j w3
      | _ => w
      end
  | None => w
  end.

End PkgReadJob.

(** [PkgReader::createReadJobs] for one package: the job is created and
    handed to [addBlocked].  [bound] says whether the tree's
    [addBlockedJob] (DirTree.cpp, not among the sources) also sets the
    job's queue pointer, as the specification's [block] does;
    [DirReadJobQueue::addBlocked] itself does not. *)
Definition createReadJob (bound : bool) (pkg : ptr) (proc : Process)
    (w : World) : ptr * World :=
  let '(j, w1) := newJob (Some pkg) (PkgReadJob pkg (Some proc) []) w in
  (j, setQueue j bound (addBlocked j w1)).

(** ** Positions in the tree

    Modelled from the spec: [FileInfo::isInSubtree],
    [DirInfo::findNearestMountPoint] and [DirTree::isTopLevel] are not
    among the sources.  A node is inside a subtree when the subtree's
    root is the node itself or one of its ancestors; the nearest mount
    point is the first node flagged as one on the way up; a top-level
    node is a child of the tree's root. *)

Fixpoint isInSubtree_from (fuel : nat) (ns : gmap ptr FileInfo)
    (p subtree : ptr) : bool :=
  if decide (p = subtree) then true
  else match fuel with
       | O => false
       | S fuel' =>
           match ns !! p with
           | Some n =>
               match parent n with
               | Some up => isInSubtree_from fuel' ns up subtree
               | None => false
               end
           | None => false
           end
       end.

Definition isInSubtree (w : World) (p subtree : ptr) : bool :=
  isInSubtree_from (base.size (nodes w)) (nodes w) p subtree.

Fixpoint findNearestMountPoint_from (fuel : nat) (ns : gmap ptr FileInfo)
    (p : ptr) : option ptr :=
  match ns !! p with
  | Some n =>
      if isMountPoint n then Some p
      else match fuel, parent n with
           | S fuel', Some up => findNearestMountPoint_from fuel' ns up
           | _, _ => None
           end
  | None => None
  end.

Definition findNearestMountPoint (w : World) (p : ptr) : option ptr :=
  findNearestMountPoint_from (base.size (nodes w)) (nodes w) p.

Definition nodeParent (w : World) (p : ptr) : option ptr :=
  match nodes w !! p with
  | Some n => parent n
  | None => None
  end.

(** ** DirReadJobQueue::killAll *)

Definition inKillZone (w : World) (subtree : ptr) (exceptJob : option ptr)
    (j : ptr) : bool :=
  if decide (exceptJob = Some j) then false
  else match jobDir w j with
       | Some d => isInSubtree w d subtree
       | None => false
       end.

(** One pass of the mutable iterator over a job list: the jobs kept, and
    the world after the killed ones were deleted. *)
Fixpoint killPass (subtree : ptr) (exceptJob : option ptr)
    (l : list ptr) (w : World) : list ptr * World :=
  match l with
  | [] => ([], w)
  | j :: rest =>
      if inKillZone w subtree exceptJob j then
        killPass subtree exceptJob rest (deleteJob j w)
      else
        let '(kept, w') := killPass subtree exceptJob rest w in
        (j :: kept, w')
  end.

Definition killAll (subtree : option ptr) (exceptJob : option ptr)
    (w : World) : World :=
  match subtree with
  | None => w
  | Some s =>
      let '(q, w1) := killPass s exceptJob (q_queue w) w in
      let w2 := set_queue (λ _, q) w1 in
      let '(b, w3) := killPass s exceptJob (q_blocked w2) w2 in
      set_blocked (λ _, b) w3
  end.

(** [DirReadJobQueue::deletingChildNotify]. *)
Definition deletingChildNotify (child : option ptr) (w : World) : World :=
  match child with
  | Some c =>
      match nodes w !! c with
      | Some n => if decide (kind n = IsFileInfo) then w
                  else killAll (Some c) None w
      | None => w
      end
  | None => w
  end.

(** [DirReadJobQueue::abort].  Modelled from the spec:
    [DirInfo::readJobAborted] marks the bound directory [Aborted]. *)
Definition abort (w : World) : World :=
  let mark := λ acc j, match jobDir acc j with
                       | Some d => setReadState DirAborted d acc
                       | None => acc
                       end in
  clear (foldl mark (foldl mark w (q_queue w)) (q_blocked w)).

(** ** Tree surgery

    Modelled from the spec: [DirTree::deleteSubtree],
    [DirTree::clearSubtree], [DirTree::clear] and [DirTree::readCache]
    are not among the sources.  Deleting a directory node announces it
    ([deletingChild]), lets the queue kill the jobs bound inside it,
    unlinks it from its parent and frees every node of the subtree;
    clearing a subtree does the same for each child and keeps the
    directory itself. *)

Definition dropChildLink (c : ptr) (p : ptr) : World -> World :=
  updNode (withChildren (filter (λ x, x ≠ c))) p.

Definition freeSubtree (d : ptr) (w : World) : World :=
  let inside := λ p, isInSubtree w p d in
  set_nodes (filter (λ kv : ptr * FileInfo, inside kv.1 = false)) w.

Definition deleteSubtree (d : ptr) (w : World) : World :=
  let up := nodeParent w d in
  let w1 := emit (deletingChild d) w in
  let w2 := deletingChildNotify (Some d) w1 in
  let w3 := match up with
            | Some p => dropChildLink d p w2
            | None => w2
            end in
  freeSubtree d w3.


(** ** QMultiMap

    A [QMultiMap<K, V>] as the list of its items in iteration order: keys
    ascend, and among items with equal keys the one inserted last comes
    first.  Only the key type's [<] is used, as in Qt. *)

Section QMultiMap.
Context {K V : Type}.
Variable ltb : K -> K -> bool.

Fixpoint mm_insert (k : K) (v : V) (m : list (K * V)) : list (K * V) :=
  match m with
  | [] => [(k, v)]
  | (k', v') :: rest =>
      if ltb k' k then (k', v') :: mm_insert k v rest
      else (k, v) :: m
  end.

Definition mm_sameKey (a b : K) : bool := negb (ltb a b) && negb (ltb b a).

(** Iterating the container ([foreach (value, map)]). *)
Definition mm_iterate (m : list (K * V)) : list V := map snd m.

(** [values(key)]. *)
Definition mm_values (k : K) (m : list (K * V)) : list V :=
  map snd (filter (λ kv : K * V, mm_sameKey kv.1 k = true) m).

(** [uniqueKeys()]: each run of equal keys contributes its key once. *)
Fixpoint mm_uniqueKeys (m : list (K * V)) : list K :=
  match m with
  | [] => []
  | (k, _) :: rest =>
      match rest with
      | (k', _) :: _ =>
          if mm_sameKey k k' then mm_uniqueKeys rest
          else k :: mm_uniqueKeys rest
      | [] => [k]
      end
  end.
End QMultiMap.

(** ** CacheReadJob *)

Inductive Outcome := Returned | NullDereference.

(** [CacheReadJob::init]: a reader that is not OK is deleted at once. *)
Definition CacheReadJob_init (r : option CacheReader) : option CacheReader :=
  match r with
  | Some rd => if cr_ok rd then Some rd else None
  | None => None
  end.

(** [CacheReadJob(tree, parent, reader)]. *)
Definition new_CacheReadJob_reader (par : option ptr)
    (reader : option CacheReader) (w : World) : ptr * World :=
  newJob par (CacheReadJob (CacheReadJob_init (CacheReader_rewind <$> reader))) w.

Definition jobReader (w : World) (j : ptr) : option CacheReader :=
  match jobs w !! j with
  | Some job =>
      match jobData job with
      | CacheReadJob r => r
      | _ => None
      end
  | None => None
  end.

Definition setReader (j : ptr) (r : option CacheReader) (w : World) : World :=
  set_jobs (alter (λ job,
    match jobData job with
    | CacheReadJob _ =>
        mkJob (_dir job) (_queue job) (_started job) (CacheReadJob r)
    | _ => job
    end) j) w.

(** [CacheReadJob::read].  The statement after [if ( ! _reader )
    finished();] is reached whatever the test said. *)
Definition CacheReadJob_read (j : ptr) (w : World) : Outcome * World :=
  match jobs w !! j with
  | Some job =>
      match jobData job with
      | CacheReadJob reader =>
          let w1 := match reader with
                    | None => DirReadJob_finished j w
                    | Some _ => w
                    end in
          match reader with
          | None => (NullDereference, w1)            (* _reader->read( 1000 ) *)
          | Some r =>
              let r' := CacheReader_read 1000 r in
              let w2 := setReader j (Some r') w1 in
              if CacheReader_eof r' || negb (cr_ok r')
              then (Returned, DirReadJob_finished j w2)
              else (Returned, w2)
          end
      | _ => (Returned, w)
      end
  | None => (Returned, w)
  end.

(** ** The file system as the jobs see it *)

Record stat := mkStat {
  st_mode  : Z;
  st_dev   : Z;
  st_ino   : Z;
  st_size  : Z;
  st_mtime : Z
}.

Definition S_IFMT : Z := 61440.    (* 0170000 *)
Definition S_IFDIR : Z := 16384.   (* 0040000 *)
Definition S_ISDIR (m : Z) : bool := Z.land m S_IFMT =? S_IFDIR.

Record dirent := mkDirent { d_ino : Z; d_name : string }.

Record FileSystem := mkFileSystem {
  (* access( path, X_OK | R_OK ) == 0 *)
  fs_access  : string -> bool;
  (* opendir( path ) and the entries readdir() then returns, in order *)
  fs_opendir : string -> option (list dirent);
  (* fstatat( dirFd, name, &statInfo, flags ) *)
  fs_fstatat : string -> string -> option stat;
  (* the CacheReader that opening a cache file yields *)
  fs_cache   : string -> CacheReader
}.

Definition DEFAULT_CACHE_NAME : string := ".qdirstat.cache.gz".

(** The entries of a directory as [startReading] collects them. *)
Definition buildEntryMap (entries : list dirent) : list (Z * string) :=
  foldl (λ entryMap entry,
           let entryName := d_name entry in
           if negb (String.eqb entryName ".") && negb (String.eqb entryName "..")
           then mm_insert Z.ltb (d_ino entry) entryName entryMap
           else entryMap)
        [] entries.

(** [CacheReadJob(tree, parent, cacheFileName)]. *)
Definition new_CacheReadJob_file (fs : FileSystem) (par : option ptr)
    (cacheFileName : string) (w : World) : ptr * World :=
  newJob par (CacheReadJob (CacheReadJob_init (Some (fs_cache fs cacheFileName)))) w.

(** Modelled from the spec: [CacheReader::firstDir] reads the header only;
    the read offset moves past it. *)
Definition CacheReader_firstDir (r : CacheReader) : string * CacheReader :=
  (cr_firstDir r,
   mkCacheReader (cr_ok r) (cr_firstDir r) (cr_lines r)
                 (Nat.min (cr_lines r) (S (cr_offset r)))).

(** ** LocalDirReadJob *)

Definition fullName (_dirName entryName : string) : string :=
  let result := if String.eqb _dirName "/" then "" else _dirName in
  result +:+ "/" +:+ entryName.

Definition nodeUrl (w : World) (p : option ptr) : string :=
  match p with
  | Some d => match nodes w !! d with
              | Some n => url n
              | None => ""
              end
  | None => ""
  end.

(** [new DirInfo( entryName, &statInfo, tree, parent )]. *)
Definition DirInfo_fromStat (entryName : string) (st : stat) (par : ptr)
    (w : World) : ptr * World :=
  newNode (mkFileInfo IsDirInfo entryName
             (fullName (nodeUrl w (Some par)) entryName) (Some par) []
             (st_dev st) (st_mode st) (st_size st) (st_mtime st)
             DirQueued false false false) w.

(** [new FileInfo( entryName, &statInfo, tree, parent )]. *)
Definition FileInfo_fromStat (entryName : string) (st : stat) (par : ptr)
    (w : World) : ptr * World :=
  newNode (mkFileInfo IsFileInfo entryName
             (fullName (nodeUrl w (Some par)) entryName) (Some par) []
             (st_dev st) (st_mode st) (st_size st) (st_mtime st)
             DirFinished false false false) w.

(** [new DirInfo( tree, parent, name, mode, size, mtime )]. *)
Definition DirInfo_plain (entryName : string) (md sz mt : Z) (par : ptr)
    (w : World) : ptr * World :=
  newNode (mkFileInfo IsDirInfo entryName
             (fullName (nodeUrl w (Some par)) entryName) (Some par) []
             0 md sz mt DirQueued false false false) w.

(** [new LocalDirReadJob( tree, dir )]. *)
Definition new_LocalDirReadJob (dir : option ptr) (w : World) : ptr * World :=
  newJob dir (LocalDirReadJob (nodeUrl w dir) false) w.

Definition setApplyFileChildExcludeRules (j : ptr) (b : bool) (w : World) : World :=
  set_jobs (alter (λ job,
    match jobData job with
    | LocalDirReadJob dn _ =>
        mkJob (_dir job) (_queue job) (_started job) (LocalDirReadJob dn b)
    | _ => job
    end) j) w.

(** [LocalDirReadJob::finishReading]. *)
Definition finishReading (dir : ptr) (st : DirReadState) (w : World) : World :=
  let w1 := setReadState st dir w in
  let w2 := sendFinalizeLocal dir w1 in
  let w3 := finalizeLocalNode dir w2 in
  sendReadJobFinished dir w3.

(** [LocalDirReadJob::handleLstatError]. *)
Definition handleLstatError (d : ptr) (entryName : string) (w : World) : World :=
  let '(child, w1) := DirInfo_plain entryName 0 0 0 d w in
  let w2 := finalizeLocalNode child w1 in
  let w3 := setReadState DirError child w2 in
  let w4 := insertChild d child w3 in
  childAddedNotify child w4.


Inductive ScanResult := ScanDone | ScanPreempted | ScanCrashed.

Section LocalDirReadJob.

Variable fs : FileSystem.
(** [ExcludeRules::instance()]: [match] and [matchDirectChildren]. *)
Variable excludeMatch : string -> string -> bool.
Variable matchDirectChildren : World -> ptr -> bool.
(** [MountPoints::findByPath( url )], giving the mount point's device. *)
Variable findByPath : string -> option string.
(** The tree: [device()], [crossFileSystems()] and [root()]. *)
Variable treeDevice : string.
Variable crossFileSystems : bool.
Variable root : ptr.

(** [DirReadJob::device]. *)
Definition DirReadJob_device (w : World) (dir : option ptr) : string :=
  match dir with
  | Some d =>
      match findByPath (nodeUrl w (Some d)) with
      | Some dev => dev
      | None => ""
      end
  | None => ""
  end.

Definition QString_isEmpty (s : string) : bool := String.eqb s "".

(** [DirReadJob::crossingFileSystems]. *)
Definition crossingFileSystems (w : World) (par child : ptr) : bool :=
  match nodes w !! par, nodes w !! child with
  | Some pn, Some cn =>
      if device pn =? device cn then false
      else
        let childDevice := DirReadJob_device w (Some child) in
        let parentDevice :=
          DirReadJob_device w (findNearestMountPoint w par) in
        let parentDevice :=
          if QString_isEmpty parentDevice then treeDevice else parentDevice in
        let crossing := true in
        let crossing :=
          if negb (QString_isEmpty parentDevice)
             && negb (QString_isEmpty childDevice)
          then negb (String.eqb parentDevice childDevice)
          else crossing in
        crossing
  | _, _ => false
  end.

(** [DirTree::addJob] hands the job to the tree's queue. *)
Definition addJob (j : ptr) (w : World) : World := enqueue (Some j) w.

Definition isTopLevel (w : World) (d : ptr) : bool :=
  bool_decide (nodeParent w d = Some root).

(** Modelled from the spec: [DirTree::clear] empties the queue and frees
    every node below the root; [DirTree::readCache] starts a
    [CacheReadJob] without a parent on the given file. *)
Definition DirTree_clear (w : World) : World :=
  set_nodes (filter (λ kv : ptr * FileInfo, kv.1 = root)) (clear w).

Definition DirTree_readCache (cacheFileName : string) (w : World) : World :=
  let '(job, w1) := new_CacheReadJob_file fs None cacheFileName w in
  addJob job w1.

(** [LocalDirReadJob::processSubDir]; [d] and [dirName] are the job's
    [_dir] and [_dirName]. *)
Definition processSubDir (d : ptr) (dirName entryName : string)
    (subDir : ptr) (w : World) : World :=
  let w1 := childAddedNotify subDir (insertChild d subDir w) in
  if excludeMatch (fullName dirName entryName) entryName then
    let w2 := setExcluded subDir w1 in
    finishReading subDir DirOnRequestOnly w2
  else
    if negb (crossingFileSystems w1 d subDir) then
      let '(job, w2) := new_LocalDirReadJob (Some subDir) w1 in
      let w3 := setApplyFileChildExcludeRules job true w2 in
      addJob job w3
    else
      let w2 := setMountPoint subDir w1 in
      if crossFileSystems then
        let '(job, w3) := new_LocalDirReadJob (Some subDir) w2 in
        let w4 := setApplyFileChildExcludeRules job true w3 in
        addJob job w4
      else
        finishReading subDir DirOnRequestOnly w2.

(** [LocalDirReadJob::readCacheFile].  [reader()] of a job whose reader
    was not OK is null, and [firstDir()] is called on it all the same. *)
Definition readCacheFile (d : ptr) (dirName cacheFileName : string)
    (w : World) : option bool * World :=
  let cacheFullName := fullName dirName cacheFileName in
  let '(cacheReadJob, w1) :=
    new_CacheReadJob_file fs (nodeParent w d) cacheFullName w in
  match jobReader w1 cacheReadJob with
  | None => (None, w1)
  | Some reader =>
      let '(firstDirInCache, reader1) := CacheReader_firstDir reader in
      let w2 := setReader cacheReadJob (Some reader1) w1 in
      if String.eqb firstDirInCache dirName then
        if isTopLevel w2 d then
          let w3 := DirTree_clear w2 in
          (Some true, DirTree_readCache cacheFullName w3)
        else
          let w3 := setReader cacheReadJob
                      (Some (CacheReader_rewind reader1)) w2 in
          let w4 := addJob cacheReadJob w3 in
          let w5 := match nodeParent w4 d with
                    | Some up => setReadState DirReading up w4
                    | None => w4
                    end in
          let w6 := killAll (Some d) (Some cacheReadJob) w5 in
          (Some true, deleteSubtree d w6)
      else
        (Some false, deleteJob cacheReadJob w2)
  end.

(** The [foreach] over the entry map in [startReading]. *)
Fixpoint readEntries (d : ptr) (dirName : string) (entries : list string)
    (w : World) : ScanResult * World :=
  match entries with
  | [] => (ScanDone, w)
  | entryName :: rest =>
      match fs_fstatat fs dirName entryName with
      | Some statInfo =>
          if S_ISDIR (st_mode statInfo) then
            let '(subDir, w1) := DirInfo_fromStat entryName statInfo d w in
            readEntries d dirName rest
              (processSubDir d dirName entryName subDir w1)
          else
            let addFile := λ w0,
              let '(child, w1) := FileInfo_fromStat entryName statInfo d w0 in
              childAddedNotify child (insertChild d child w1) in
            if String.eqb entryName DEFAULT_CACHE_NAME then
              match readCacheFile d dirName entryName w with
              | (Some true, w1) => (ScanPreempted, w1)
              | (Some false, w1) => readEntries d dirName rest (addFile w1)
              | (None, w1) => (ScanCrashed, w1)
              end
            else readEntries d dirName rest (addFile w)
      | None =>
          readEntries d dirName rest (handleLstatError d entryName w)
      end
  end.


End LocalDirReadJob.

(** ** PkgReader: display names *)

(** The members of [PkgInfo] that [PkgReader] reads and writes; [pkg_name]
    is the node name shown to the user. *)
Record PkgInfo := mkPkgInfo {
  pkg_baseName     : string;
  pkg_name         : string;
  pkg_version      : string;
  pkg_arch         : string;
  pkg_multiVersion : bool;
  pkg_multiArch    : bool
}.

#[global] Instance PkgInfo_inhabited : Inhabited PkgInfo :=
  populate (mkPkgInfo "" "" "" "" false false).

(** Modelled from the spec: PkgInfo.h is not among the sources; a package
    reported by the package manager starts with its base name as name. *)
Definition new_PkgInfo (base ver ar : string) : PkgInfo :=
  mkPkgInfo base base ver ar false false.

Definition setMultiVersion (b : bool) (p : PkgInfo) : PkgInfo :=
  mkPkgInfo (pkg_baseName p) (pkg_name p) (pkg_version p) (pkg_arch p)
            b (pkg_multiArch p).
Definition setMultiArch (b : bool) (p : PkgInfo) : PkgInfo :=
  mkPkgInfo (pkg_baseName p) (pkg_name p) (pkg_version p) (pkg_arch p)
            (pkg_multiVersion p) b.
Definition setName (n : string) (p : PkgInfo) : PkgInfo :=
  mkPkgInfo (pkg_baseName p) n (pkg_version p) (pkg_arch p)
            (pkg_multiVersion p) (pkg_multiArch p).

(** [PkgReader::createDisplayName]; [heap] holds the [PkgInfo] objects the
    pointers of [_multiPkg] refer to. *)
Definition createDisplayName (_multiPkg : list (string * ptr))
    (pkgName : string) (heap : gmap ptr PkgInfo) : gmap ptr PkgInfo :=
  let pkgList := mm_values String.ltb pkgName _multiPkg in
  if (length pkgList <? 2)%nat then heap
  else
    let first := hd 0%nat pkgList in
    let version := pkg_version (heap !!! first) in
    let arch := pkg_arch (heap !!! first) in
    let '(sameVersion, sameArch) :=
      foldl (λ '(sv, sa) pkg,
               (if negb (String.eqb (pkg_version (heap !!! pkg)) version)
                then false else sv,
                if negb (String.eqb (pkg_arch (heap !!! pkg)) arch)
                then false else sa))
            (true, true) (tail pkgList) in
    foldl (λ h pkg,
             let name := pkgName in
             let '(name, h) :=
               if negb sameVersion
               then (name +:+ "-" +:+ pkg_version (h !!! pkg),
                     alter (setMultiVersion true) pkg h)
               else (name, h) in
             let '(name, h) :=
               if negb sameArch
               then (name +:+ ":" +:+ pkg_arch (h !!! pkg),
                     alter (setMultiArch true) pkg h)
               else (name, h) in
             alter (setName name) pkg h)
          heap pkgList.

(** [PkgReader::handleMultiPkg] on the package list [_pkgList]. *)
Definition handleMultiPkg (_pkgList : list ptr) (heap : gmap ptr PkgInfo)
    : gmap ptr PkgInfo :=
  let _multiPkg :=
    foldl (λ m pkg, mm_insert String.ltb (pkg_baseName (heap !!! pkg)) pkg m)
          [] _pkgList in
  foldl (λ h pkgName, createDisplayName _multiPkg pkgName h)
        heap (mm_uniqueKeys String.ltb _multiPkg).

(** The display-name rule in the specification's words: group by base
    name; a package alone in its group is left as it is; in a larger group
    the version is appended when the members do not all share one version,
    and the architecture when they do not all share one architecture. *)
Definition allShare (f : PkgInfo -> string) (grp : list PkgInfo) : bool :=
  forallb (λ a, forallb (λ b, String.eqb (f a) (f b)) grp) grp.

Definition groupOf (_pkgList : list ptr) (heap : gmap ptr PkgInfo)
    (base : string) : list PkgInfo :=
  filter (λ p, pkg_baseName p = base) ((λ i, heap !!! i) <$> _pkgList).

Definition disambiguated (grp : list PkgInfo) (p : PkgInfo) : PkgInfo :=
  if (length grp <? 2)%nat then p
  else
    let versionsDiffer := negb (allShare pkg_version grp) in
    let archsDiffer := negb (allShare pkg_arch grp) in
    mkPkgInfo (pkg_baseName p)
      (pkg_baseName p
       +:+ (if versionsDiffer then "-" +:+ pkg_version p else "")
       +:+ (if archsDiffer then ":" +:+ pkg_arch p else ""))
      (pkg_version p) (pkg_arch p)
      (if versionsDiffer then true else pkg_multiVersion p)
      (if archsDiffer then true else pkg_multiArch p).

Definition examplePkgs : gmap ptr PkgInfo :=
  <[0%nat := new_PkgInfo "foo" "1.0" "x86_64"]>
  (<[1%nat := new_PkgInfo "foo" "2.0" "x86_64"]>
  (<[2%nat := new_PkgInfo "bar" "1.0" "x86_64"]> ∅)).

(** ** Runs of queue operations

    What a scan does to the queue between two looks at it: jobs are
    enqueued, parked as blocked, unblocked, and report completion. *)

Inductive QueueOp :=
| OpEnqueue (job : option ptr)
| OpAddBlocked (j : ptr)
| OpUnblock (j : ptr)
| OpJobFinishedNotify (job : option ptr)
| OpFinished (j : ptr).

#[global] Instance QueueOp_eq_dec : EqDecision QueueOp.
Proof. solve_decision. Defined.

Definition runOp (op : QueueOp) (w : World) : World :=
  match op with
  | OpEnqueue job => enqueue job w
  | OpAddBlocked j => addBlocked j w
  | OpUnblock j => unblock j w
  | OpJobFinishedNotify job => jobFinishedNotify job w
  | OpFinished j => DirReadJob_finished j w
  end.

Definition runOps (ops : list QueueOp) (w : World) : World :=
  foldl (λ acc op, runOp op acc) w ops.

(** A tree holding one package node below [Pkg:], and the file-list
    output parser used in the examples. *)
Definition pkgNode (nm : string) : FileInfo :=
  mkFileInfo IsPkgInfo nm ("Pkg:/" +:+ nm) None [] 0 0 0 0
             DirQueued false false false.

Definition onePkgWorld : World :=
  (newNode (pkgNode "foo") emptyWorld).2.

Definition linesOf (s : string) : list string := [s].

(** The scan of one package whose file-list command exits with code 2. *)
Definition failedPkgScan (bound : bool) : World :=
  let '(j, w) := createReadJob bound 0%nat (mkProcess "") onePkgWorld in
  readFileListFinished linesOf j 2 NormalExit w.

(** A file system whose cache files cannot be opened, and the world after
    [DirTree::readCache] was asked to read one: job 0 has no reader. *)
Definition brokenCacheFs : FileSystem :=
  mkFileSystem (λ _, true) (λ _, None) (λ _ _, None)
               (λ _, mkCacheReader false "" 0 0).

Definition unreadableCacheWorld : World :=
  DirTree_readCache brokenCacheFs "/t/.qdirstat.cache.gz" emptyWorld.

(** The node [new DirInfo( entryName, &statInfo, tree, dir )] makes for an
    entry of the directory [d] (node [dn]), the world once [processSubDir]
    has linked it in and announced it, and the job made for it. *)
Definition subDirNode (d : ptr) (dn : FileInfo) (entryName : string)
    (st : stat) : FileInfo :=
  mkFileInfo IsDirInfo entryName (fullName (url dn) entryName) (Some d) []
             (st_dev st) (st_mode st) (st_size st) (st_mtime st)
             DirQueued false false false.

Definition subDirLinked (d : ptr) (entryName : string) (st : stat)
    (w : World) : World :=
  childAddedNotify (nextNode w)
    (insertChild d (nextNode w) (DirInfo_fromStat entryName st d w).2).

Definition subDirJob (subDir : ptr) (dn : FileInfo) (entryName : string)
    : DirReadJob :=
  mkJob (Some subDir) true false
        (LocalDirReadJob (fullName (url dn) entryName) true).

(** The three statements by which [processSubDir] starts a job for a
    sub-directory, in either of its two branches. *)
Definition spawnSubDirJob (subDir : ptr) (w : World) : World :=
  let '(job, w2) := new_LocalDirReadJob (Some subDir) w in
  let w3 := setApplyFileChildExcludeRules job true w2 in
  enqueue (Some job) w3.

(** The rule "a child whose [st_dev] differs from its parent's device is a
    mount point, and without cross-filesystem traversal it is left
    [OnRequestOnly] with no job", read on [processSubDir]. *)
Definition mountPointRule (excludeMatch : string -> string -> bool)
    (findByPath : string -> option string) (treeDevice : string)
    (crossFileSystems : bool) (d : ptr) (dirName entryName : string)
    (st : stat) (w : World) : Prop :=
  forall dn, nodes w !! d = Some dn -> device dn ≠ st_dev st ->
    let subDir := nextNode w in
    let w' := processSubDir excludeMatch findByPath treeDevice crossFileSystems
                d dirName entryName subDir
                (DirInfo_fromStat entryName st d w).2 in
    isMountPoint <$> nodes w' !! subDir = Some true /\
    (crossFileSystems = false ->
       readState <$> nodes w' !! subDir = Some DirOnRequestOnly /\
       forall j job, jobs w' !! j = Some job -> _dir job ≠ Some subDir).

(** A tree whose top directory [/t] (device 1) is being read, a mount
    table that reports one device for every path (as for a bind mount or
    a subvolume), and the [stat] of a sub-directory with [st_dev] 2. *)
Definition tNode : FileInfo :=
  mkFileInfo IsDirInfo "/t" "/t" None [] 1 16877 4096 0
             DirReading false false false.

Definition tWorld : World := (newNode tNode emptyWorld).2.

Definition oneDiskMounts : string -> option string := λ _, Some "/dev/sda1".
Definition noMounts : string -> option string := λ _, None.
Definition noExcludeRules : string -> string -> bool := λ _ _, false.
Definition otherDevStat : stat := mkStat 16877 2 7 4096 0.

(** The placeholder [handleLstatError] leaves for an entry of directory
    [d] (node [dn]) that could not be [stat]ed. *)
Definition lstatPlaceholder (d : ptr) (dn : FileInfo) (entryName : string)
    : FileInfo :=
  mkFileInfo IsDirInfo entryName (fullName (url dn) entryName) (Some d) []
             0 0 0 0 DirError false false true.

(** One more child of [d], named [entryName], between two worlds: the
    child is the node allocated next, it is the last of [d]'s children,
    and no other node changed its name. *)
Definition childInserted (d : ptr) (entryName : string) (w w1 : World) : Prop :=
  nextNode w1 = S (nextNode w) /\
  (forall p, p ≠ nextNode w -> name <$> nodes w1 !! p = name <$> nodes w !! p) /\
  name <$> nodes w1 !! nextNode w = Some entryName /\
  children <$> nodes w1 !! d
    = (λ cs, cs ++ [nextNode w]) <$> (children <$> nodes w !! d).

(** The entries of a directory other than [.] and [..], as pairs of
    i-number and name. *)
Definition realEntries (entries : list dirent) : list (Z * string) :=
  (λ e, (d_ino e, d_name e)) <$>
    filter (λ e, d_name e ≠ "." /\ d_name e ≠ "..") entries.

(** A directory [/t] with two hard links to one file, a sub-directory and
    an entry that cannot be [stat]ed. *)
Definition tEntries : list dirent :=
  [ mkDirent 2 "."; mkDirent 1 ".."; mkDirent 10 "a"; mkDirent 5 "b";
    mkDirent 7 "gone"; mkDirent 5 "c" ].

Definition tFs : FileSystem :=
  mkFileSystem
    (λ _, true)
    (λ path, if String.eqb path "/t" then Some tEntries else Some [])
    (λ _ entryName,
       if String.eqb entryName "a" then Some (mkStat 16877 1 10 4096 0)
       else if String.eqb entryName "gone" then None
       else Some (mkStat 33188 1 5 100 0))
    (λ _, mkCacheReader false "" 0 0).

(** The three statements by which [startReading] adds a non-directory
    child: [new FileInfo], [insertChild], [childAdded]. *)
Definition fileChildAdded (d : ptr) (entryName : string) (st : stat)
    (w : World) : World :=
  let '(child, w1) := FileInfo_fromStat entryName st d w in
  childAddedNotify child (insertChild d child w1).

(** The pass of [startReading] over [/t]. *)
Definition tScan : ScanResult * World :=
  readEntries tFs noExcludeRules noMounts "" false 9%nat 0%nat "/t"
    (mm_iterate (buildEntryMap tEntries)) tWorld.

(** What the second loop of [createDisplayName] does to one package of a
    group, once [sameVersion] and [sameArch] are known. *)
Definition renamePkg (pkgName : string) (sameVersion sameArch : bool)
    (p : PkgInfo) : PkgInfo :=
  let p1 := if sameVersion then p else setMultiVersion true p in
  let n1 := if sameVersion then pkgName
            else pkgName +:+ "-" +:+ pkg_version p in
  let p2 := if sameArch then p1 else setMultiArch true p1 in
  let n2 := if sameArch then n1 else n1 +:+ ":" +:+ pkg_arch p in
  setName n2 p2.

(** [sameVersion] / [sameArch] as the first loop of [createDisplayName]
    leaves them: every package after the first agrees with the first. *)
Definition sameField (f : PkgInfo -> string) (heap : gmap ptr PkgInfo)
    (pkgList : list ptr) : bool :=
  forallb (λ pkg, String.eqb (f (heap !!! pkg))
                             (f (heap !!! hd 0%nat pkgList)))
          (tail pkgList).

(** The members a [PkgInfo] is grouped and told apart by. *)
Definition pkgCore (p : PkgInfo) : string * string * string :=
  (pkg_baseName p, pkg_version p, pkg_arch p).

(** The cache job [readCacheFile] hands to the queue for directory [d]:
    bound to [d]'s parent, its reader rewound after [firstDir()]. *)
Definition preemptingCacheJob (fs : FileSystem) (w : World) (d : ptr)
    (cacheFullName : string) : DirReadJob :=
  mkJob (nodeParent w d) true false
        (CacheReadJob
           (Some (CacheReader_rewind
                    (CacheReader_firstDir (fs_cache fs cacheFullName)).2))).

(** A scan in which [/t/sub] (node 1) is being read by job 0, with a
    queued job for [/t/sub/x] (node 2) and a blocked one for [/t/other]
    (node 3); the cache file in [/t/sub] is a snapshot of [/t/sub]. *)
Definition subNode (nm path : string) (par : ptr) (cs : list ptr) : FileInfo :=
  mkFileInfo IsDirInfo nm path (Some par) cs 1 16877 4096 0
             DirReading false false false.

Definition preemptWorld : World :=
  mkWorld
    (<[0%nat := withChildren (λ _, [1; 3]%nat) tNode]>
     (<[1%nat := subNode "sub" "/t/sub" 0%nat [2%nat]]>
     (<[2%nat := subNode "x" "/t/sub/x" 1%nat []]>
     (<[3%nat := subNode "other" "/t/other" 0%nat []]> ∅))))
    4%nat
    (<[0%nat := mkJob (Some 1%nat) true true (LocalDirReadJob "/t/sub" true)]>
     (<[1%nat := mkJob (Some 2%nat) true false (LocalDirReadJob "/t/sub/x" true)]>
     (<[2%nat := mkJob (Some 3%nat) false false (PkgReadJob 3%nat None [])]> ∅)))
    3%nat
    [0; 1]%nat [2%nat] true [startingReading].

Definition subCacheFs : FileSystem :=
  mkFileSystem (λ _, true) (λ _, Some []) (λ _ _, None)
               (λ _, mkCacheReader true "/t/sub" 40 0).

(** Finishing the runnable jobs one after the other, head first, the way
    the timer dispatches them. *)
Definition finishInOrder (w : World) : World :=
  runOps ((λ j, OpJobFinishedNotify (Some j)) <$> q_queue w) w.


(** Whether [processSubDir] makes a job for a sub-directory. *)
Definition subDirGetsJob (excluded crossing crossFileSystems : bool) : bool :=
  negb excluded && (negb crossing || crossFileSystems).
(** ** Basic facts about the queue *)

Lemma events_enqueue job w :
  events (enqueue job w) =
  events w ++ match job with
              | Some _ => if q_timer w then [] else [startingReading]
              | None => []
              end.
Proof.
  destruct job as [j|]; simpl; [|by rewrite app_nil_r].
  destruct (q_timer w); simpl; [by rewrite app_nil_r | done].
Qed.

Lemma events_jobFinishedNotify job w :
  events (jobFinishedNotify job w) =
  events w ++
    (if isEmpty (match job with
                 | Some j => removeOne j (q_queue w)
                 | None => q_queue w
                 end) && isEmpty (q_blocked w)
     then [finished] else []).
Proof.
  unfold jobFinishedNotify.
  destruct job as [j|]; simpl.
  - destruct (removeOne j (q_queue w)); simpl;
      [destruct (q_blocked w); simpl|]; by rewrite ?app_nil_r.
  - destruct (q_queue w); simpl;
      [destruct (q_blocked w); simpl|]; by rewrite ?app_nil_r.
Qed.

Lemma blocked_jobFinishedNotify job w :
  q_blocked (jobFinishedNotify job w) = q_blocked w.
Proof.
  unfold jobFinishedNotify.
  destruct w as [ns nn js nj q b t ev], job as [j|]; simpl.
  - destruct (removeOne j q); simpl; [destruct b|]; done.
  - destruct q; simpl; [destruct b|]; done.
Qed.

Lemma emitted_app w w' l : events w' = events w ++ l -> emitted w w' = l.
Proof. unfold emitted. intros ->. by rewrite drop_app_length. Qed.

Lemma queue_enqueue j w : q_queue (enqueue (Some j) w) = q_queue w ++ [j].
Proof. unfold enqueue. simpl. by destruct (q_timer w). Qed.

Lemma blocked_enqueue job w : q_blocked (enqueue job w) = q_blocked w.
Proof. destruct job; simpl; [by destruct (q_timer w) | done]. Qed.

Lemma nodes_enqueue job w : nodes (enqueue job w) = nodes w.
Proof. destruct job; simpl; [by destruct (q_timer w) | done]. Qed.

Lemma nodes_jobFinishedNotify job w : nodes (jobFinishedNotify job w) = nodes w.
Proof.
  unfold jobFinishedNotify.
  destruct w as [ns nn js nj q b t ev], job as [j|]; simpl.
  - destruct (removeOne j q); simpl; [destruct b|]; done.
  - destruct q; simpl; [destruct b|]; done.
Qed.

Lemma nodes_finished j w : nodes (DirReadJob_finished j w) = nodes w.
Proof.
  unfold DirReadJob_finished. destruct (jobs w !! j) as [job|]; [|done].
  destruct (_queue job); [apply nodes_jobFinishedNotify | done].
Qed.

Lemma blocked_finished j w : q_blocked (DirReadJob_finished j w) = q_blocked w.
Proof.
  unfold DirReadJob_finished. destruct (jobs w !! j) as [job|]; [|done].
  destruct (_queue job); [apply blocked_jobFinishedNotify | done].
Qed.

Lemma elem_of_removeOne_ne j x l : x ≠ j -> x ∈ l -> x ∈ removeOne j l.
Proof.
  intros Hne. induction l as [|y l IH]; simpl; [done|].
  intros [Heq|Hin]%elem_of_cons; destruct (decide (y = j)); subst.
  - done.
  - left.
  - done.
  - right; auto.
Qed.

Lemma removeOne_subset j x l : x ∈ removeOne j l -> x ∈ l.
Proof.
  induction l as [|y l IH]; simpl; [done|].
  destruct (decide (y = j)); [by right|].
  intros [Heq|Hin]%elem_of_cons; subst; [left | right; auto].
Qed.

(** X1: [enqueue] emits [startingReading] exactly when it is given a job
    (not a null pointer) while the timer is idle; nothing else it does
    emits that signal. *)
Lemma startingReading_iff job w :
  startingReading ∈ emitted w (enqueue job w) <->
  (exists j, job = Some j) /\ q_timer w = false.
Proof.
  rewrite (emitted_app _ _ _ (events_enqueue job w)).
  destruct job as [j|]; [destruct (q_timer w)|]; split.
  - by intros ?%elem_of_nil.
  - by intros [_ ?].
  - eauto.
  - intros _. left.
  - by intros ?%elem_of_nil.
  - by intros [[? ?] _].
Qed.

(** X2: [jobFinishedNotify] emits [finished] exactly when the runnable
    list is empty after the removal and the blocked list is empty as
    well. *)
Lemma finished_iff job w :
  finished ∈ emitted w (jobFinishedNotify job w) <->
  q_queue (jobFinishedNotify job w) = [] /\
  q_blocked (jobFinishedNotify job w) = [].
Proof.
  rewrite (emitted_app _ _ _ (events_jobFinishedNotify job w)).
  rewrite blocked_jobFinishedNotify.
  unfold jobFinishedNotify.
  destruct w as [ns nn js nj q b t ev], job as [j|]; simpl.
  - destruct (removeOne j q) eqn:E; simpl; [destruct b; simpl|];
      rewrite ?E; (split; [try by intros ?%elem_of_nil | ]);
      try (intros [? ?]; congruence); try done; intros _; left.
  - destruct q; simpl; [destruct b; simpl|];
      (split; [try by intros ?%elem_of_nil | ]);
      try (intros [? ?]; congruence); try done; intros _; left.
Qed.

(** ** A blocked entry survives every queue operation but its own unblock *)

Lemma isEmpty_elem {A} (x : A) (l : list A) : x ∈ l -> isEmpty l = false.
Proof. destruct l; [by intros ?%elem_of_nil | done]. Qed.

Lemma runOp_keeps_blocked j op w :
  j ∈ q_blocked w -> op ≠ OpUnblock j ->
  j ∈ q_blocked (runOp op w) /\
  exists l, events (runOp op w) = events w ++ l /\ finished ∉ l.
Proof.
  intros Hin Hop. destruct op as [job|j'|j'|job|j']; simpl.
  - rewrite blocked_enqueue, events_enqueue. split; [done|].
    eexists; split; [done|].
    destruct job; [destruct (q_timer w)|]; try apply not_elem_of_nil.
    intros [?|?%elem_of_nil]%elem_of_cons; done.
  - split; [apply elem_of_app; by left|]. exists []. split; [by rewrite app_nil_r|].
    apply not_elem_of_nil.
  - unfold unblock. rewrite blocked_enqueue, events_enqueue. simpl. split.
    + unfold removeAll. apply list_elem_of_filter. split; [congruence | done].
    + eexists; split; [done|]. destruct (q_timer w); [apply not_elem_of_nil|].
      intros [?|?%elem_of_nil]%elem_of_cons; done.
  - rewrite blocked_jobFinishedNotify, events_jobFinishedNotify.
    split; [done|]. eexists; split; [done|].
    rewrite (isEmpty_elem _ _ Hin), andb_false_r. apply not_elem_of_nil.
  - rewrite blocked_finished. split; [done|].
    unfold DirReadJob_finished. destruct (jobs w !! j') as [job|].
    + destruct (_queue job).
      * rewrite events_jobFinishedNotify. eexists; split; [done|].
        rewrite (isEmpty_elem _ _ Hin), andb_false_r. apply not_elem_of_nil.
      * simpl. eexists; split; [done|].
        intros [?|?%elem_of_nil]%elem_of_cons; done.
    + exists []. split; [by rewrite app_nil_r | apply not_elem_of_nil].
Qed.

Lemma runOps_keeps_blocked j ops : forall w,
  j ∈ q_blocked w -> Forall (λ op, op ≠ OpUnblock j) ops ->
  j ∈ q_blocked (runOps ops w) /\
  exists l, events (runOps ops w) = events w ++ l /\ finished ∉ l.
Proof.
  induction ops as [|op ops IH]; intros w Hin Hops; simpl.
  - split; [done|]. exists []. split; [by rewrite app_nil_r | apply not_elem_of_nil].
  - apply Forall_cons in Hops as [Hop Hops].
    destruct (runOp_keeps_blocked j op w Hin Hop) as (Hin1 & l1 & He1 & Hl1).
    destruct (IH _ Hin1 Hops) as (Hin2 & l2 & He2 & Hl2).
    split; [exact Hin2|]. exists (l1 ++ l2).
    change (runOps (op :: ops) w) with (runOps ops (runOp op w)).
    rewrite He2, He1, <- app_assoc. split; [done|].
    intros [?|?]%elem_of_app; done.
Qed.

Lemma jobs_jobFinishedNotify j w :
  jobs (jobFinishedNotify (Some j) w) = delete j (jobs w).
Proof.
  unfold jobFinishedNotify.
  destruct w as [ns nn js nj q b t ev]; simpl.
  destruct (removeOne j q); simpl; [destruct b|]; done.
Qed.

(** C10: [jobFinishedNotify] takes the finished job out of the runnable
    list only and leaves the blocked list as it was.  Hence, when a job
    that sits in the blocked list calls [finished()], its entry stays in
    the blocked list (the job itself being deleted when its queue pointer
    was set); whatever the queue does afterwards, short of an [unblock] of
    that very job, the blocked list keeps the entry, is never empty, and
    no [finished] signal is emitted. *)
Theorem blocked_entry_outlives_finished (j : ptr) (w : World)
    (ops : list QueueOp) :
  j ∈ q_blocked w ->
  Forall (λ op, op ≠ OpUnblock j) ops ->
  let w1 := DirReadJob_finished j w in
  let w2 := runOps ops w1 in
  q_blocked (jobFinishedNotify (Some j) w) = q_blocked w /\
  (forall job, jobs w !! j = Some job -> _queue job = true ->
               jobs w1 !! j = None) /\
  (j ∈ q_blocked w1) /\
  (j ∈ q_blocked w2) /\
  q_blocked w2 ≠ [] /\
  finished ∉ emitted w w2.
Proof.
  intros Hin Hops w1 w2.
  assert (Hstep : Forall (λ op, op ≠ OpUnblock j) (OpFinished j :: ops))
    by (constructor; [done | exact Hops]).
  destruct (runOps_keeps_blocked j (OpFinished j :: ops) w Hin Hstep)
    as (Hin2 & l & He & Hl).
  change (runOps (OpFinished j :: ops) w) with w2 in *.
  split; [apply blocked_jobFinishedNotify|].
  split.
  { intros job Hj Hq. subst w1. unfold DirReadJob_finished.
    rewrite Hj, Hq, jobs_jobFinishedNotify. apply lookup_delete_eq. }
  split; [subst w1; by rewrite blocked_finished|].
  split; [done|].
  split; [intros E; rewrite E in Hin2; by apply elem_of_nil in Hin2|].
  by rewrite (emitted_app _ _ _ He).
Qed.

Lemma blocked_entry_outlives_finished_witness :
  finished ∉ emitted (createReadJob true 0%nat (mkProcess "") onePkgWorld).2
    (runOps [OpEnqueue (Some 7%nat); OpFinished 7%nat; OpJobFinishedNotify None]
       (DirReadJob_finished 0%nat
          (createReadJob true 0%nat (mkProcess "") onePkgWorld).2)).
Proof.
  apply (blocked_entry_outlives_finished 0%nat
           (createReadJob true 0%nat (mkProcess "") onePkgWorld).2
           [OpEnqueue (Some 7%nat); OpFinished 7%nat; OpJobFinishedNotify None]).
  - simpl. left.
  - repeat constructor; discriminate.
Defined.

(** C1: the scan of a single package whose file-list command exits with
    code 2.  Once the job has reported completion no runnable job is left,
    the timer is stopped and the package is in state [Error] -- the scan
    has ended -- yet the blocked list still holds the job's address, no
    [finished] signal has been emitted, and none is emitted by anything the
    queue does later. *)
Theorem finished_missing_after_failed_pkg (bound : bool)
    (ops : list QueueOp) :
  Forall (λ op, op ≠ OpUnblock 0%nat) ops ->
  let w := failedPkgScan bound in
  q_queue w = [] /\
  q_timer w = false /\
  (bound = true -> jobs w = ∅) /\
  nodeReadState w 0%nat = Some DirError /\
  q_blocked w = [0%nat] /\
  (finished ∉ events w) /\
  (finished ∉ events (runOps ops w)).
Proof.
  intros Hops w.
  assert (Hw : q_blocked w = [0%nat] /\ finished ∉ events w).
  { subst w. destruct bound; vm_compute; (split; [done|]);
      intros H; repeat (apply elem_of_cons in H as [H|H]; [discriminate|]);
      by apply elem_of_nil in H. }
  destruct Hw as [Hb Hev].
  repeat split; try done.
  - subst w. by destruct bound; vm_compute.
  - subst w. by destruct bound; vm_compute.
  - intros ->. subst w. by vm_compute.
  - subst w. by destruct bound; vm_compute.
  - destruct (runOps_keeps_blocked 0%nat ops w) as (_ & l & He & Hl);
      [rewrite Hb; left | done |].
    rewrite He. intros [?|?]%elem_of_app; done.
Qed.

Lemma finished_missing_after_failed_pkg_witness :
  finished ∉ events
    (runOps [OpJobFinishedNotify None; OpEnqueue None] (failedPkgScan true)).
Proof.
  apply (finished_missing_after_failed_pkg true
           [OpJobFinishedNotify None; OpEnqueue None]).
  repeat constructor; discriminate.
Defined.

(** ** CacheReadJob::read without a reader *)

(** C4: on a cache job whose reader is null, [read] calls [finished()] and
    then goes on to [_reader->read( 1000 )]: the invocation ends in a
    dereference of the absent reader, after the queue has deleted the job.
    (A reader that is there is asked for its lines before [finished()]
    is considered at all.) *)
Theorem CacheReadJob_read_null_reader (j : ptr) (w : World) (job : DirReadJob) :
  jobs w !! j = Some job ->
  jobData job = CacheReadJob None ->
  CacheReadJob_read j w = (NullDereference, DirReadJob_finished j w) /\
  (_queue job = true -> jobs (DirReadJob_finished j w) !! j = None).
Proof.
  intros Hj Hd. unfold CacheReadJob_read. rewrite Hj, Hd. split; [done|].
  intros Hq. unfold DirReadJob_finished.
  rewrite Hj, Hq, jobs_jobFinishedNotify. apply lookup_delete_eq.
Qed.

Lemma CacheReadJob_read_null_reader_witness :
  CacheReadJob_read 0%nat unreadableCacheWorld =
    (NullDereference, DirReadJob_finished 0%nat unreadableCacheWorld) /\
  jobs (DirReadJob_finished 0%nat unreadableCacheWorld) !! 0%nat = None.
Proof.
  destruct (CacheReadJob_read_null_reader 0%nat unreadableCacheWorld
              (mkJob None true false (CacheReadJob None))) as [H1 H2].
  - reflexivity.
  - reflexivity.
  - split; [exact H1 | apply H2; reflexivity].
Defined.

(** ** PkgReadJob::readFileListFinished *)

Lemma jobs_setPkgJob_lookup j proc fl w job pkg p0 fl0 :
  jobs w !! j = Some job ->
  jobData job = PkgReadJob pkg p0 fl0 ->
  jobs (setPkgJob j proc fl w) !! j =
    Some (mkJob (_dir job) (_queue job) (_started job) (PkgReadJob pkg proc fl)).
Proof.
  intros Hj Hd. simpl. rewrite lookup_alter_eq, Hj. simpl. by rewrite Hd.
Qed.

Lemma queue_jobFinishedNotify j w :
  q_queue (jobFinishedNotify (Some j) w) = removeOne j (q_queue w).
Proof.
  unfold jobFinishedNotify.
  destruct w as [ns nn js nj q b t ev]; simpl.
  destruct (removeOne j q) eqn:E; simpl; [destruct b|]; simpl; by rewrite ?E.
Qed.

Lemma queue_finished_subset j x w :
  x ∈ q_queue (DirReadJob_finished j w) -> x ∈ q_queue w.
Proof.
  unfold DirReadJob_finished. destruct (jobs w !! j) as [job|]; [|done].
  destruct (_queue job); [|done].
  rewrite queue_jobFinishedNotify. apply removeOne_subset.
Qed.

(** C7: when the file-list process of a blocked [PkgReadJob] has exited,
    the job ends up in the runnable queue if and only if the exit status
    is normal and the exit code is 0; in that case the process output,
    parsed by the package manager, is the job's file list and the job has
    left the blocked list.  On any other outcome the package node's state
    is [Error], [readJobFinished] is published for the package, the job
    calls [finished()], and it is neither unblocked nor made runnable. *)
Theorem readFileListFinished_outcomes (parseFileList : string -> list string)
    (j : ptr) (job : DirReadJob) (pkg : ptr) (proc : Process)
    (fl : list string) (exitCode : Z) (exitStatus : ExitStatus) (w : World) :
  jobs w !! j = Some job ->
  jobData job = PkgReadJob pkg (Some proc) fl ->
  (j ∉ q_queue w) ->
  let w' := readFileListFinished parseFileList j exitCode exitStatus w in
  (j ∈ q_queue w' <-> exitStatus = NormalExit /\ exitCode = 0) /\
  (exitStatus = NormalExit /\ exitCode = 0 ->
     jobData <$> jobs w' !! j =
       Some (PkgReadJob pkg (Some proc) (parseFileList (proc_output proc))) /\
     q_queue w' = q_queue w ++ [j] /\
     (j ∉ q_blocked w') /\
     nodes w' = nodes w) /\
  (~ (exitStatus = NormalExit /\ exitCode = 0) ->
     nodeReadState w' pkg = (λ _, DirError) <$> nodes w !! pkg /\
     (readJobFinished pkg ∈ events w') /\
     w' = DirReadJob_finished j
            (setPkgJob j None fl
               (sendReadJobFinished pkg (setReadState DirError pkg w))) /\
     q_blocked w' = q_blocked w).
Proof.
  intros Hj Hd Hnq w'.
  assert (Hok : {exitStatus = NormalExit /\ exitCode = 0}
                + {~ (exitStatus = NormalExit /\ exitCode = 0)}).
  { destruct (decide (exitStatus = NormalExit)), (decide (exitCode = 0));
      [left | right | right | right]; tauto. }
  assert (Hgood : exitStatus = NormalExit /\ exitCode = 0 ->
            w' = unblock j (setPkgJob j (Some proc)
                              (parseFileList (proc_output proc)) w)).
  { intros [-> ->]. subst w'. unfold readFileListFinished. by rewrite Hj, Hd. }
  assert (Hbad : ~ (exitStatus = NormalExit /\ exitCode = 0) ->
            w' = DirReadJob_finished j
                   (setPkgJob j None fl
                      (sendReadJobFinished pkg (setReadState DirError pkg w)))).
  { intros Hn. subst w'. unfold readFileListFinished. rewrite Hj, Hd.
    destruct (decide (exitStatus ≠ NormalExit)) as [|Hs]; [done|].
    simpl. destruct (exitCode =? 0) eqn:E; [|done].
    apply Z.eqb_eq in E. exfalso. apply Hn. split; [|done].
    destruct exitStatus; [done | exfalso; apply Hs; discriminate]. }
  assert (Hnotin : ~ (exitStatus = NormalExit /\ exitCode = 0) -> j ∉ q_queue w').
  { intros Hn Hin. rewrite (Hbad Hn) in Hin.
    apply queue_finished_subset in Hin. by apply Hnq. }
  split; [|split].
  - destruct Hok as [Hy|Hn].
    + split; [done|]. intros _. rewrite (Hgood Hy). unfold unblock.
      rewrite queue_enqueue. apply elem_of_app. right. left.
    + split; [intros Hin; by apply Hnotin in Hin | done].
  - intros Hy. rewrite (Hgood Hy). unfold unblock.
    rewrite queue_enqueue, blocked_enqueue, nodes_enqueue. simpl.
    split; [|split; [done|split; [|done]]].
    + destruct (q_timer w); simpl;
        rewrite !lookup_alter_eq, Hj; simpl; by rewrite Hd.
    + unfold removeAll. intros [? _]%list_elem_of_filter. done.
  - intros Hn. rewrite (Hbad Hn).
    split; [|split; [|split; [done|]]].
    + unfold nodeReadState. rewrite nodes_finished. simpl.
      rewrite lookup_alter_eq. by destruct (nodes w !! pkg).
    + unfold DirReadJob_finished.
      erewrite jobs_setPkgJob_lookup; [|exact Hj|exact Hd]. simpl.
      destruct (_queue job).
      * rewrite events_jobFinishedNotify. simpl.
        apply elem_of_app. left. apply elem_of_app. right. left.
      * simpl. apply elem_of_app. left. apply elem_of_app. right. left.
    + by rewrite blocked_finished.
Qed.

Lemma readFileListFinished_outcomes_witness :
  nodeReadState (failedPkgScan true) 0%nat = Some DirError /\
  0%nat ∉ q_queue (failedPkgScan true).
Proof.
  pose proof (readFileListFinished_outcomes linesOf 0%nat
    (mkJob (Some 0%nat) true false (PkgReadJob 0%nat (Some (mkProcess "")) []))
    0%nat (mkProcess "") [] 2 NormalExit
    (createReadJob true 0%nat (mkProcess "") onePkgWorld).2
    eq_refl eq_refl (not_elem_of_nil _)) as (Hiff & _ & Hbad).
  split.
  - apply Hbad. intros [_ ?]. discriminate.
  - intros Hin. apply Hiff in Hin as [_ ?]. discriminate.
Defined.

(** ** LocalDirReadJob::processSubDir *)

Ltac nodesimp :=
  repeat first
    [ rewrite lookup_alter_eq
    | rewrite lookup_alter_ne by (done || congruence)
    | rewrite lookup_insert_eq
    | rewrite lookup_insert_ne by (done || congruence)
    | rewrite lookup_delete_eq
    | rewrite lookup_delete_ne by (done || congruence) ].

Lemma fresh_ne (w : World) (d : ptr) (dn : FileInfo) :
  nodes w !! d = Some dn -> nodes w !! nextNode w = None -> d ≠ nextNode w.
Proof. intros Hd Hf E. rewrite <- E in Hf. congruence. Qed.

Lemma subDirLinked_child d dn entryName st w :
  nodes w !! d = Some dn -> nodes w !! nextNode w = None ->
  nodes (subDirLinked d entryName st w) !! nextNode w
    = Some (subDirNode d dn entryName st).
Proof.
  intros Hd Hf. pose proof (fresh_ne _ _ _ Hd Hf).
  unfold subDirLinked, nodeUrl. simpl. rewrite Hd. nodesimp. reflexivity.
Qed.

Lemma subDirLinked_parent d dn entryName st w :
  nodes w !! d = Some dn -> nodes w !! nextNode w = None ->
  nodes (subDirLinked d entryName st w) !! d
    = Some (withChildren (λ cs, cs ++ [nextNode w]) dn).
Proof.
  intros Hd Hf. pose proof (fresh_ne _ _ _ Hd Hf).
  unfold subDirLinked. simpl. nodesimp. rewrite Hd. reflexivity.
Qed.

Lemma subDirLinked_other d entryName st w p :
  p ≠ d -> p ≠ nextNode w ->
  nodes (subDirLinked d entryName st w) !! p = nodes w !! p.
Proof. intros. unfold subDirLinked. simpl. by nodesimp. Qed.

(** Making the job for a sub-directory: [new LocalDirReadJob],
    [setApplyFileChildExcludeRules( true )], [addJob]. *)
Lemma spawnSubDirJob_spec (wx : World) (c : ptr) (n : FileInfo) :
  nodes wx !! c = Some n ->
  jobs (spawnSubDirJob c wx) !! nextJob wx
    = Some (mkJob (Some c) true false (LocalDirReadJob (url n) true)) /\
  (forall j, j ≠ nextJob wx ->
             jobs (spawnSubDirJob c wx) !! j = jobs wx !! j) /\
  q_queue (spawnSubDirJob c wx) = q_queue wx ++ [nextJob wx] /\
  q_blocked (spawnSubDirJob c wx) = q_blocked wx /\
  nodes (spawnSubDirJob c wx) = nodes wx.
Proof.
  intros Hc. unfold spawnSubDirJob, new_LocalDirReadJob, newJob.
  rewrite queue_enqueue, blocked_enqueue, nodes_enqueue.
  unfold enqueue, nodeUrl. rewrite Hc. simpl.
  repeat split.
  - destruct (q_timer wx); simpl; by nodesimp.
  - intros j Hj. destruct (q_timer wx); simpl; by nodesimp.
Qed.

Lemma processSubDir_eq excludeMatch findByPath treeDevice crossFileSystems
    d dirName entryName subDir w :
  processSubDir excludeMatch findByPath treeDevice crossFileSystems
    d dirName entryName subDir w =
  let wl := childAddedNotify subDir (insertChild d subDir w) in
  if excludeMatch (fullName dirName entryName) entryName then
    finishReading subDir DirOnRequestOnly (setExcluded subDir wl)
  else if negb (crossingFileSystems findByPath treeDevice wl d subDir) then
    spawnSubDirJob subDir wl
  else if crossFileSystems then
    spawnSubDirJob subDir (setMountPoint subDir wl)
  else finishReading subDir DirOnRequestOnly (setMountPoint subDir wl).
Proof. reflexivity. Qed.

Section ProcessSubDir.
Variable excludeMatch : string -> string -> bool.
Variable findByPath : string -> option string.
Variable treeDevice : string.
Variable crossFileSystems : bool.
Variables (d : ptr) (dn : FileInfo) (dirName entryName : string) (st : stat).
Variable w : World.
Hypothesis Hd : nodes w !! d = Some dn.
Hypothesis Hfresh : nodes w !! nextNode w = None.

Let subDir := nextNode w.
Let w' := processSubDir excludeMatch findByPath treeDevice crossFileSystems
            d dirName entryName subDir (DirInfo_fromStat entryName st d w).2.

(** Everything later steps need to know about the linked-in world. *)
Ltac linked_facts wl Hc Hj Hnj Hq Hb :=
  fold (subDirLinked d entryName st w);
  pose proof (subDirLinked_child d dn entryName st w Hd Hfresh) as Hc;
  assert (Hj : jobs (subDirLinked d entryName st w) = jobs w) by done;
  assert (Hnj : nextJob (subDirLinked d entryName st w) = nextJob w) by done;
  assert (Hq : q_queue (subDirLinked d entryName st w) = q_queue w) by done;
  assert (Hb : q_blocked (subDirLinked d entryName st w) = q_blocked w) by done;
  set (wl := subDirLinked d entryName st w) in *; clearbody wl.

Lemma processSubDir_excluded :
  excludeMatch (fullName dirName entryName) entryName = true ->
  nodes w' !! subDir
    = Some (withFinalized (withReadState DirOnRequestOnly
              (withExcluded (subDirNode d dn entryName st)))) /\
  jobs w' = jobs w /\ q_queue w' = q_queue w /\ q_blocked w' = q_blocked w.
Proof.
  intros Hx. subst w' subDir. rewrite processSubDir_eq. cbv zeta.
  rewrite Hx. linked_facts wl Hc Hj Hnj Hq Hb.
  simpl. nodesimp. by rewrite Hc.
Qed.

Lemma crossing_same_device :
  device dn = st_dev st ->
  crossingFileSystems findByPath treeDevice
    (subDirLinked d entryName st w) d subDir = false.
Proof.
  intros Hdev. unfold crossingFileSystems. subst subDir.
  rewrite (subDirLinked_parent d dn entryName st w Hd Hfresh).
  rewrite (subDirLinked_child d dn entryName st w Hd Hfresh).
  simpl. by rewrite Hdev, Z.eqb_refl.
Qed.

Lemma processSubDir_not_crossing :
  excludeMatch (fullName dirName entryName) entryName = false ->
  crossingFileSystems findByPath treeDevice
    (subDirLinked d entryName st w) d subDir = false ->
  nodes w' !! subDir = Some (subDirNode d dn entryName st) /\
  jobs w' !! nextJob w = Some (subDirJob subDir dn entryName) /\
  (forall j, j ≠ nextJob w -> jobs w' !! j = jobs w !! j) /\
  q_queue w' = q_queue w ++ [nextJob w] /\
  q_blocked w' = q_blocked w.
Proof.
  intros Hx Hcr. subst w' subDir. rewrite processSubDir_eq. cbv zeta.
  rewrite Hx. linked_facts wl Hc Hj Hnj Hq Hb. rewrite Hcr. simpl negb. cbv iota.
  destruct (spawnSubDirJob_spec wl _ _ Hc) as (H1 & H2 & H3 & H4 & H5).
  rewrite Hnj, ?Hj, ?Hq, ?Hb in *.
  repeat split; try done.
  by rewrite H5.
Qed.

Lemma processSubDir_crossing :
  excludeMatch (fullName dirName entryName) entryName = false ->
  crossingFileSystems findByPath treeDevice
    (subDirLinked d entryName st w) d subDir = true ->
  (crossFileSystems = true ->
     nodes w' !! subDir = Some (withMountPoint (subDirNode d dn entryName st)) /\
     jobs w' !! nextJob w = Some (subDirJob subDir dn entryName) /\
     (forall j, j ≠ nextJob w -> jobs w' !! j = jobs w !! j) /\
     q_queue w' = q_queue w ++ [nextJob w] /\
     q_blocked w' = q_blocked w) /\
  (crossFileSystems = false ->
     nodes w' !! subDir
       = Some (withFinalized (withReadState DirOnRequestOnly
                 (withMountPoint (subDirNode d dn entryName st)))) /\
     jobs w' = jobs w /\ q_queue w' = q_queue w /\
     q_blocked w' = q_blocked w).
Proof.
  intros Hx Hcr. subst w' subDir. rewrite processSubDir_eq. cbv zeta.
  rewrite Hx. linked_facts wl Hc Hj Hnj Hq Hb. rewrite Hcr. simpl negb. cbv iota.
  split; intros ->.
  - assert (Hc' : nodes (setMountPoint (nextNode w) wl) !! nextNode w
                  = Some (withMountPoint (subDirNode d dn entryName st)))
      by (simpl; nodesimp; by rewrite Hc).
    destruct (spawnSubDirJob_spec _ _ _ Hc') as (H1 & H2 & H3 & H4 & H5).
    simpl in H1, H2, H3, H4.
    rewrite Hnj, ?Hj, ?Hq, ?Hb in *.
    repeat split; try done.
    by rewrite H5.
  - simpl. nodesimp. by rewrite Hc.
Qed.
End ProcessSubDir.

(** X4: [crossingFileSystems] answers [true] exactly when the two
    directories differ in [st_dev] and the mount table does not name one
    and the same known device for the child and for the parent's nearest
    mount point (the tree's device standing in when that one is
    unknown). *)
Lemma crossingFileSystems_true_iff findByPath treeDevice w par child pn cn :
  nodes w !! par = Some pn -> nodes w !! child = Some cn ->
  crossingFileSystems findByPath treeDevice w par child = true <->
  device pn ≠ device cn /\
  let childDevice := DirReadJob_device findByPath w (Some child) in
  let nearest := DirReadJob_device findByPath w (findNearestMountPoint w par) in
  let parentDevice := if QString_isEmpty nearest then treeDevice else nearest in
  (parentDevice = "" \/ childDevice = "" \/ parentDevice ≠ childDevice).
Proof.
  intros Hp Hc. unfold crossingFileSystems. rewrite Hp, Hc.
  destruct (device pn =? device cn) eqn:E.
  - apply Z.eqb_eq in E. split; [done | by intros [? _]].
  - apply Z.eqb_neq in E. cbv zeta.
    unfold QString_isEmpty.
    set (cd := DirReadJob_device findByPath w (Some child)).
    set (pd := if String.eqb _ "" then treeDevice else _).
    destruct (String.eqb_spec pd ""), (String.eqb_spec cd ""); simpl.
    + split; [intros _; split; [done | by left] | done].
    + split; [intros _; split; [done | by left] | done].
    + split; [intros _; split; [done | right; by left] | done].
    + destruct (String.eqb_spec pd cd); simpl.
      * split; [done | intros [_ [?|[?|?]]]; done].
      * split; [intros _; split; [done | right; by right] | done].
Qed.

Section ProcessSubDirCases.
Variable excludeMatch : string -> string -> bool.
Variable findByPath : string -> option string.
Variable treeDevice : string.
Variable crossFileSystems : bool.
Variables (d : ptr) (dn : FileInfo) (dirName entryName : string) (st : stat).
Variable w : World.
Hypothesis Hd : nodes w !! d = Some dn.
Hypothesis Hfresh : nodes w !! nextNode w = None.

Let subDir := nextNode w.
Let w' := processSubDir excludeMatch findByPath treeDevice crossFileSystems
            d dirName entryName subDir (DirInfo_fromStat entryName st d w).2.

(** C5: what [processSubDir] does with a sub-directory child.  If an
    exclude rule matches its full path or base name, the child is marked
    excluded, its state is [OnRequestOnly], it is finalized and no job is
    made.  If no rule matches and the child is on the parent's device --
    [crossingFileSystems] says no, as it always does when the two
    [st_dev] agree -- the child is left unflagged and a new
    [LocalDirReadJob] bound to it, with the apply-child-file-exclude-rules
    flag set, is appended to the queue, nothing else in the queue
    changing.
    If no rule matches and the child crosses a file system boundary, it
    is marked a mount point; a job is enqueued when cross-filesystem
    traversal is enabled, otherwise the child is finalized as
    [OnRequestOnly] and no job is made. *)
Theorem processSubDir_cases :
  (excludeMatch (fullName dirName entryName) entryName = true ->
     nodes w' !! subDir
       = Some (withFinalized (withReadState DirOnRequestOnly
                 (withExcluded (subDirNode d dn entryName st)))) /\
     jobs w' = jobs w /\ q_queue w' = q_queue w /\
     q_blocked w' = q_blocked w) /\
  (device dn = st_dev st ->
     crossingFileSystems findByPath treeDevice
       (subDirLinked d entryName st w) d subDir = false) /\
  (excludeMatch (fullName dirName entryName) entryName = false ->
   crossingFileSystems findByPath treeDevice
     (subDirLinked d entryName st w) d subDir = false ->
     nodes w' !! subDir = Some (subDirNode d dn entryName st) /\
     jobs w' !! nextJob w = Some (subDirJob subDir dn entryName) /\
     (forall j, j ≠ nextJob w -> jobs w' !! j = jobs w !! j) /\
     q_queue w' = q_queue w ++ [nextJob w] /\
     q_blocked w' = q_blocked w) /\
  (excludeMatch (fullName dirName entryName) entryName = false ->
   crossingFileSystems findByPath treeDevice
     (subDirLinked d entryName st w) d subDir = true ->
     isMountPoint <$> nodes w' !! subDir = Some true /\
     (crossFileSystems = true ->
        jobs w' !! nextJob w = Some (subDirJob subDir dn entryName) /\
        q_queue w' = q_queue w ++ [nextJob w]) /\
     (crossFileSystems = false ->
        nodes w' !! subDir
          = Some (withFinalized (withReadState DirOnRequestOnly
                    (withMountPoint (subDirNode d dn entryName st)))) /\
        jobs w' = jobs w /\ q_queue w' = q_queue w /\
        q_blocked w' = q_blocked w)).
Proof.
  unfold w', subDir.
  split; [|split; [|split]].
  - apply (processSubDir_excluded _ _ _ _ _ _ _ _ _ _ Hd Hfresh).
  - intros Hdev.
    exact (crossing_same_device findByPath treeDevice
             d dn entryName st w Hd Hfresh Hdev).
  - intros Hx Hcr.
    exact (processSubDir_not_crossing excludeMatch findByPath treeDevice
             crossFileSystems d dn dirName entryName st w Hd Hfresh Hx Hcr).
  - intros Hx Hcr.
    destruct (processSubDir_crossing excludeMatch findByPath treeDevice
                crossFileSystems d dn dirName entryName st w Hd Hfresh Hx Hcr)
      as [Hyes Hno].
    split; [|split].
    + destruct (bool_dec crossFileSystems true) as [E|E].
      * destruct (Hyes E) as (-> & _). done.
      * apply not_true_is_false in E. destruct (Hno E) as (-> & _). done.
    + intros E. destruct (Hyes E) as (_ & H2 & _ & H3 & _). done.
    + exact Hno.
Qed.

Hypothesis Hunbound :
  forall j job, jobs w !! j = Some job -> _dir job ≠ Some (nextNode w).

(** C3 (as amended): a sub-directory child that no exclude rule matches
    and for which [crossingFileSystems] holds -- its [st_dev] differs
    from the parent's device and the mount table does not put both on
    one known device -- is flagged as a mount point; when
    cross-filesystem traversal is disabled its read state is
    [OnRequestOnly] and no read job is bound to it. *)
Theorem mount_point_flagged :
  excludeMatch (fullName dirName entryName) entryName = false ->
  crossingFileSystems findByPath treeDevice
    (subDirLinked d entryName st w) d subDir = true ->
  device dn ≠ st_dev st /\
  isMountPoint <$> nodes w' !! subDir = Some true /\
  (crossFileSystems = false ->
     readState <$> nodes w' !! subDir = Some DirOnRequestOnly /\
     forall j job, jobs w' !! j = Some job -> _dir job ≠ Some subDir).
Proof.
  unfold w', subDir. intros Hx Hcr.
  destruct (processSubDir_crossing excludeMatch findByPath treeDevice
              crossFileSystems d dn dirName entryName st w Hd Hfresh Hx Hcr)
    as [Hyes Hno].
  split; [|split].
  - intros Hdev. pose proof (crossing_same_device findByPath treeDevice
      d dn entryName st w Hd Hfresh Hdev) as E.
    congruence.
  - destruct (bool_dec crossFileSystems true) as [E|E].
    + destruct (Hyes E) as (-> & _). done.
    + apply not_true_is_false in E. destruct (Hno E) as (-> & _). done.
  - intros E. destruct (Hno E) as (-> & Hj & _). split; [done|].
    rewrite Hj. exact Hunbound.
Qed.
End ProcessSubDirCases.

Lemma processSubDir_cases_witness :
  nodes (processSubDir noExcludeRules noMounts "" false 0%nat "/t" "m" 1%nat
           (DirInfo_fromStat "m" otherDevStat 0%nat tWorld).2) !! 1%nat
  = Some (withFinalized (withReadState DirOnRequestOnly
            (withMountPoint (subDirNode 0%nat tNode "m" otherDevStat)))) /\
  jobs (processSubDir noExcludeRules oneDiskMounts "/dev/sda1" false 0%nat
          "/t" "m" 1%nat
          (DirInfo_fromStat "m" otherDevStat 0%nat tWorld).2) !! 0%nat
  = Some (subDirJob 1%nat tNode "m").
Proof.
  split.
  - destruct (processSubDir_cases noExcludeRules noMounts "" false 0%nat tNode
                "/t" "m" otherDevStat tWorld eq_refl eq_refl)
      as (_ & _ & _ & H).
    destruct (H eq_refl eq_refl) as (_ & _ & Hno).
    destruct (Hno eq_refl) as (Hn & _). exact Hn.
  - destruct (processSubDir_cases noExcludeRules oneDiskMounts "/dev/sda1"
                false 0%nat tNode "/t" "m" otherDevStat tWorld eq_refl eq_refl)
      as (_ & _ & H & _).
    destruct (H eq_refl eq_refl) as (_ & Hj & _). exact Hj.
Defined.

Lemma mount_point_flagged_witness :
  isMountPoint <$>
    nodes (processSubDir noExcludeRules noMounts "" false 0%nat "/t" "m" 1%nat
             (DirInfo_fromStat "m" otherDevStat 0%nat tWorld).2) !! 1%nat
  = Some true.
Proof.
  destruct (mount_point_flagged noExcludeRules noMounts "" false 0%nat tNode
              "/t" "m" otherDevStat tWorld eq_refl eq_refl)
    as (_ & H & _).
  - intros j job Hj. vm_compute in Hj. discriminate.
  - reflexivity.
  - reflexivity.
  - exact H.
Defined.

(** With one device reported for every path, a child whose [st_dev]
    differs from its parent's is not flagged, and it gets a job although
    cross-filesystem traversal is off. *)
Lemma mountPointRule_fails :
  ~ mountPointRule noExcludeRules oneDiskMounts "/dev/sda1" false 0%nat
      "/t" "m" otherDevStat tWorld.
Proof.
  unfold mountPointRule. intros H.
  assert (Hdev : device tNode ≠ st_dev otherDevStat) by done.
  destruct (H tNode eq_refl Hdev) as [Hmp _].
  vm_compute in Hmp. discriminate.
Qed.

(** ** LocalDirReadJob::handleLstatError *)

Lemma handleLstatError_nodes d dn entryName w :
  nodes w !! d = Some dn -> nodes w !! nextNode w = None ->
  nodes (handleLstatError d entryName w) !! nextNode w
    = Some (lstatPlaceholder d dn entryName) /\
  nodes (handleLstatError d entryName w) !! d
    = Some (withChildren (λ cs, cs ++ [nextNode w]) dn) /\
  (forall p, p ≠ d -> p ≠ nextNode w ->
     nodes (handleLstatError d entryName w) !! p = nodes w !! p).
Proof.
  intros Hd Hf. pose proof (fresh_ne _ _ _ Hd Hf).
  unfold handleLstatError, nodeUrl. simpl. rewrite Hd.
  repeat split.
  - by nodesimp.
  - nodesimp. by rewrite Hd.
  - intros p ? ?. by nodesimp.
Qed.

(** C9: for a directory entry whose [fstatat] fails, [handleLstatError]
    makes a placeholder [DirInfo] with mode, size and mtime 0 and read
    state [Error], inserts it as the last child of the directory being
    read (whose own state is left alone) and announces it; [startReading]
    then goes on with the remaining entries. *)
Theorem handleLstatError_placeholder (fs : FileSystem)
    (excludeMatch : string -> string -> bool)
    (findByPath : string -> option string) (treeDevice : string)
    (crossFileSystems : bool) (root : ptr)
    (d : ptr) (dn : FileInfo) (dirName entryName : string)
    (rest : list string) (w : World) :
  nodes w !! d = Some dn ->
  nodes w !! nextNode w = None ->
  fs_fstatat fs dirName entryName = None ->
  let w' := handleLstatError d entryName w in
  nodes w' !! nextNode w = Some (lstatPlaceholder d dn entryName) /\
  nodes w' !! d = Some (withChildren (λ cs, cs ++ [nextNode w]) dn) /\
  events w' = events w ++ [childAdded (nextNode w)] /\
  jobs w' = jobs w /\ q_queue w' = q_queue w /\
  readEntries fs excludeMatch findByPath treeDevice crossFileSystems root
    d dirName (entryName :: rest) w
  = readEntries fs excludeMatch findByPath treeDevice crossFileSystems root
      d dirName rest w'.
Proof.
  intros Hd Hf Hstat w'.
  destruct (handleLstatError_nodes d dn entryName w Hd Hf) as (H1 & H2 & _).
  repeat split; try done.
  simpl. by rewrite Hstat.
Qed.

Lemma handleLstatError_placeholder_witness :
  nodes (handleLstatError 0%nat "gone" tWorld) !! 1%nat
    = Some (lstatPlaceholder 0%nat tNode "gone") /\
  readEntries tFs noExcludeRules noMounts "" false 9%nat
    0%nat "/t" ["gone"; "a"] tWorld
  = readEntries tFs noExcludeRules noMounts "" false 9%nat
      0%nat "/t" ["a"] (handleLstatError 0%nat "gone" tWorld).
Proof.
  destruct (handleLstatError_placeholder tFs noExcludeRules noMounts "" false
              9%nat 0%nat tNode "/t" "gone" ["a"] tWorld
              eq_refl eq_refl eq_refl) as (H1 & _ & _ & _ & _ & H2).
  split; [exact H1 | exact H2].
Defined.

(** ** The entry map: i-number order, nothing lost *)

Lemma mm_insert_perm {K V} (ltb : K -> K -> bool) k (v : V) m :
  mm_insert ltb k v m ≡ₚ (k, v) :: m.
Proof.
  induction m as [|[k' v'] m IH]; simpl; [done|].
  destruct (ltb k' k); [|done].
  rewrite IH. apply Permutation_swap.
Qed.

Lemma mm_insert_HdRel a k (v : string) m :
  (a <= k)%Z -> HdRel Z.le a (fst <$> m) ->
  HdRel Z.le a (fst <$> mm_insert Z.ltb k v m).
Proof.
  intros Hak Hm. destruct m as [|[k' v'] m]; simpl.
  - by constructor.
  - destruct (Z.ltb k' k); constructor; [|done].
    by apply HdRel_inv in Hm.
Qed.

Lemma mm_insert_sorted k (v : string) m :
  Sorted Z.le (fst <$> m) -> Sorted Z.le (fst <$> mm_insert Z.ltb k v m).
Proof.
  induction m as [|[k' v'] m IH]; simpl; intros Hs.
  - by repeat constructor.
  - apply Sorted_inv in Hs as [Hs Hh].
    destruct (Z.ltb_spec k' k).
    + simpl. constructor; [by apply IH|].
      apply mm_insert_HdRel; [lia | done].
    + simpl. constructor; [by constructor|]. by constructor.
Qed.

Lemma buildEntryMap_from_sorted entries : forall acc,
  Sorted Z.le (fst <$> acc) ->
  Sorted Z.le (fst <$>
    foldl (λ entryMap entry,
             let entryName := d_name entry in
             if negb (String.eqb entryName ".") && negb (String.eqb entryName "..")
             then mm_insert Z.ltb (d_ino entry) entryName entryMap
             else entryMap) acc entries).
Proof.
  induction entries as [|e es IH]; intros acc Hs; simpl; [done|].
  apply IH. destruct (negb _ && negb _); [by apply mm_insert_sorted | done].
Qed.

Lemma buildEntryMap_from_perm entries : forall acc,
  foldl (λ entryMap entry,
           let entryName := d_name entry in
           if negb (String.eqb entryName ".") && negb (String.eqb entryName "..")
           then mm_insert Z.ltb (d_ino entry) entryName entryMap
           else entryMap) acc entries
  ≡ₚ realEntries entries ++ acc.
Proof.
  induction entries as [|e es IH]; intros acc; simpl; [done|].
  rewrite IH. unfold realEntries. rewrite filter_cons.
  destruct (String.eqb_spec (d_name e) "."), (String.eqb_spec (d_name e) "..");
    simpl; destruct (decide _) as [[? ?]|Hn]; try done.
  - rewrite mm_insert_perm. simpl. by rewrite Permutation_middle.
  - exfalso. by apply Hn.
Qed.

Lemma buildEntryMap_sorted entries :
  Sorted Z.le (fst <$> buildEntryMap entries).
Proof. apply buildEntryMap_from_sorted. constructor. Qed.

Lemma buildEntryMap_perm entries :
  buildEntryMap entries ≡ₚ realEntries entries.
Proof.
  unfold buildEntryMap. rewrite buildEntryMap_from_perm. by rewrite app_nil_r.
Qed.

(** ** One child per entry *)

Lemma lookup_alter_proj {B} (g : FileInfo -> B) (f : FileInfo -> FileInfo)
    (c p : ptr) (m : gmap ptr FileInfo) :
  (forall n, g (f n) = g n) ->
  g <$> alter f c m !! p = g <$> m !! p.
Proof.
  intros Hg. rewrite lookup_alter. case_decide as E; [subst|done].
  destruct (m !! p); simpl; [by rewrite Hg | done].
Qed.

Lemma nodes_spawnSubDirJob c w : nodes (spawnSubDirJob c w) = nodes w.
Proof.
  unfold spawnSubDirJob, new_LocalDirReadJob, newJob. cbv beta iota zeta.
  by rewrite nodes_enqueue.
Qed.

Lemma nextNode_enqueue job w : nextNode (enqueue job w) = nextNode w.
Proof. destruct job; simpl; [by destruct (q_timer w) | done]. Qed.

Lemma nextNode_spawnSubDirJob c w : nextNode (spawnSubDirJob c w) = nextNode w.
Proof.
  unfold spawnSubDirJob, new_LocalDirReadJob, newJob. cbv beta iota zeta.
  by rewrite nextNode_enqueue.
Qed.

(** [processSubDir] touches flags and state of the new node only: names,
    child lists and parent links are those of the linked-in world. *)
Lemma processSubDir_shape {B} (g : FileInfo -> B)
    excludeMatch findByPath treeDevice crossFileSystems
    d dirName entryName c w p :
  (forall st n, g (withReadState st n) = g n) ->
  (forall n, g (withMountPoint n) = g n) ->
  (forall n, g (withExcluded n) = g n) ->
  (forall n, g (withFinalized n) = g n) ->
  g <$> nodes (processSubDir excludeMatch findByPath treeDevice
                 crossFileSystems d dirName entryName c w) !! p
  = g <$> nodes (childAddedNotify c (insertChild d c w)) !! p.
Proof.
  intros H1 H2 H3 H4. rewrite processSubDir_eq. cbv zeta.
  set (wl := childAddedNotify c (insertChild d c w)). clearbody wl.
  destruct (excludeMatch _ _); [|destruct (negb _); [|destruct crossFileSystems]].
  - simpl. by rewrite !lookup_alter_proj.
  - by rewrite nodes_spawnSubDirJob.
  - rewrite nodes_spawnSubDirJob. simpl. by rewrite !lookup_alter_proj.
  - simpl. by rewrite !lookup_alter_proj.
Qed.

Lemma nextNode_processSubDir excludeMatch findByPath treeDevice
    crossFileSystems d dirName entryName c w :
  nextNode (processSubDir excludeMatch findByPath treeDevice
              crossFileSystems d dirName entryName c w) = nextNode w.
Proof.
  rewrite processSubDir_eq. cbv zeta.
  destruct (excludeMatch _ _); [|destruct (negb _); [|destruct crossFileSystems]];
    by rewrite ?nextNode_spawnSubDirJob.
Qed.

(** Linking a fresh node named [entryName] below [d]. *)
Lemma linked_childInserted d entryName (n0 : FileInfo) w :
  name n0 = entryName ->
  is_Some (nodes w !! d) -> nodes w !! nextNode w = None ->
  childInserted d entryName w
    (childAddedNotify (nextNode w)
       (insertChild d (nextNode w) (newNode n0 w).2)).
Proof.
  intros Hn [dn Hd] Hf. pose proof (fresh_ne _ _ _ Hd Hf).
  unfold childInserted. simpl. repeat split.
  - intros p Hp. destruct (decide (p = d)) as [->|]; nodesimp; [|done].
    by rewrite Hd.
  - nodesimp. simpl. by rewrite Hn.
  - nodesimp. by rewrite Hd.
Qed.

Lemma handleLstatError_childInserted d entryName w :
  is_Some (nodes w !! d) -> nodes w !! nextNode w = None ->
  childInserted d entryName w (handleLstatError d entryName w).
Proof.
  intros [dn Hd] Hf. pose proof (fresh_ne _ _ _ Hd Hf).
  destruct (handleLstatError_nodes d dn entryName w Hd Hf) as (H1 & H2 & H3).
  unfold childInserted. repeat split.
  - intros p Hp. destruct (decide (p = d)) as [->|]; [|by rewrite H3].
    by rewrite H2, Hd.
  - by rewrite H1.
  - by rewrite H2, Hd.
Qed.

Lemma fileChildAdded_childInserted d entryName st w :
  is_Some (nodes w !! d) -> nodes w !! nextNode w = None ->
  childInserted d entryName w (fileChildAdded d entryName st w).
Proof. intros. by apply linked_childInserted. Qed.

Lemma processSubDir_childInserted excludeMatch findByPath treeDevice
    crossFileSystems d dirName entryName st w :
  is_Some (nodes w !! d) -> nodes w !! nextNode w = None ->
  childInserted d entryName w
    (processSubDir excludeMatch findByPath treeDevice crossFileSystems
       d dirName entryName (nextNode w) (DirInfo_fromStat entryName st d w).2).
Proof.
  intros Hd Hf.
  destruct (linked_childInserted d entryName
              (mkFileInfo IsDirInfo entryName
                 (fullName (nodeUrl w (Some d)) entryName) (Some d) []
                 (st_dev st) (st_mode st) (st_size st) (st_mtime st)
                 DirQueued false false false) w eq_refl Hd Hf)
    as (H1 & H2 & H3 & H4).
  unfold childInserted.
  rewrite nextNode_processSubDir.
  split; [done|]. split; [|split].
  - intros p Hp. rewrite processSubDir_shape by done. by apply H2.
  - rewrite processSubDir_shape by done. exact H3.
  - rewrite processSubDir_shape by done. exact H4.
Qed.

Section ReadEntries.
Variable fs : FileSystem.
Variable excludeMatch : string -> string -> bool.
Variable findByPath : string -> option string.
Variable treeDevice : string.
Variable crossFileSystems : bool.
Variable root : ptr.

(** A cache file that is not used leaves the tree as it was. *)
Lemma readCacheFile_false d dirName cacheFileName w w1 :
  readCacheFile fs root d dirName cacheFileName w = (Some false, w1) ->
  nodes w1 = nodes w /\ nextNode w1 = nextNode w /\
  q_queue w1 = q_queue w /\ q_blocked w1 = q_blocked w /\
  events w1 = events w /\
  jobs w1 = delete (nextJob w) (jobs w) /\
  String.eqb (cr_firstDir (fs_cache fs (fullName dirName cacheFileName)))
             dirName = false.
Proof.
  unfold readCacheFile, new_CacheReadJob_file, newJob, jobReader. simpl.
  rewrite lookup_insert_eq. simpl. unfold CacheReadJob_init.
  destruct (cr_ok _); [|done].
  destruct (String.eqb _ dirName) eqn:E.
  - destruct (isTopLevel _ _ _); intros [=].
  - intros [= <-]. simpl. repeat split.
    apply map_eq. intros i. destruct (decide (i = nextJob w)) as [->|].
    + by rewrite !lookup_delete_eq.
    + by rewrite !lookup_delete_ne, lookup_alter_ne, lookup_insert_ne.
Qed.

(** One entry that does not end the scan adds one child. *)
Lemma readEntries_step d dirName entryName rest w res :
  is_Some (nodes w !! d) -> nodes w !! nextNode w = None ->
  readEntries fs excludeMatch findByPath treeDevice crossFileSystems root
    d dirName (entryName :: rest) w = (ScanDone, res) ->
  exists w1,
    childInserted d entryName w w1 /\
    readEntries fs excludeMatch findByPath treeDevice crossFileSystems root
      d dirName rest w1 = (ScanDone, res).
Proof.
  intros Hd Hf. simpl.
  destruct (fs_fstatat fs dirName entryName) as [statInfo|].
  - destruct (S_ISDIR (st_mode statInfo)).
    + intros Hr. eexists. split; [|exact Hr].
      by apply processSubDir_childInserted.
    + change (λ w0 : World,
                let '(child, w1) := FileInfo_fromStat entryName statInfo d w0 in
                childAddedNotify child (insertChild d child w1))
        with (fileChildAdded d entryName statInfo).
      destruct (String.eqb entryName DEFAULT_CACHE_NAME).
      * destruct (readCacheFile _ _ _ _ _ _) as [[[|]|] w1] eqn:Ec;
          try (intros [=]; fail).
        intros Hr. eexists. split; [|exact Hr].
        apply readCacheFile_false in Ec as (Hn & Hnn & _).
        assert (Hd1 : is_Some (nodes w1 !! d)) by (by rewrite Hn).
        assert (Hf1 : nodes w1 !! nextNode w1 = None) by (by rewrite Hn, Hnn).
        pose proof (fileChildAdded_childInserted d entryName statInfo w1 Hd1 Hf1)
          as Hc.
        unfold childInserted in *. by rewrite Hn, Hnn in Hc.
      * intros Hr. eexists. split; [|exact Hr].
        by apply fileChildAdded_childInserted.
  - intros Hr. eexists. split; [|exact Hr].
    by apply handleLstatError_childInserted.
Qed.
End ReadEntries.

Section ChildrenInOrder.
Variable fs : FileSystem.
Variable excludeMatch : string -> string -> bool.
Variable findByPath : string -> option string.
Variable treeDevice : string.
Variable crossFileSystems : bool.
Variable root : ptr.
Variables (d : ptr) (dirName : string).

(** A completed pass over the entries appends one fresh child per
    entry, in the order of the entries. *)
Lemma readEntries_done (entries : list string) : forall w res,
  is_Some (nodes w !! d) ->
  (forall p : ptr, (nextNode w <= p)%nat -> nodes w !! p = None) ->
  readEntries fs excludeMatch findByPath treeDevice crossFileSystems root
    d dirName entries w = (ScanDone, res) ->
  nextNode res = (nextNode w + length entries)%nat /\
  children <$> nodes res !! d
    = (λ cs, cs ++ seq (nextNode w) (length entries))
        <$> (children <$> nodes w !! d) /\
  (forall i nm, entries !! i = Some nm ->
     name <$> nodes res !! (nextNode w + i)%nat = Some nm) /\
  (forall p : ptr, (p < nextNode w)%nat ->
     name <$> nodes res !! p = name <$> nodes w !! p).
Proof.
  induction entries as [|e rest IH]; intros w res Hd Hf Hr.
  - simpl in Hr. injection Hr as <-. simpl.
    split; [lia|]. split; [|split; [done|done]].
    destruct (nodes w !! d); simpl; [by rewrite app_nil_r | done].
  - assert (Hf0 : nodes w !! nextNode w = None) by (apply Hf; lia).
    destruct (readEntries_step fs excludeMatch findByPath treeDevice
                crossFileSystems root d dirName e rest w res Hd Hf0 Hr)
      as (w1 & (Hn1 & Hnames & Hc & Hch) & Hr1).
    assert (Hd1 : is_Some (nodes w1 !! d)).
    { destruct Hd as [dn Hd]. rewrite Hd in Hch. simpl in Hch.
      destruct (nodes w1 !! d); [done | discriminate]. }
    assert (Hf1 : forall p : ptr, (nextNode w1 <= p)%nat -> nodes w1 !! p = None).
    { intros p Hp. rewrite Hn1 in Hp.
      assert (Hne : p ≠ nextNode w) by lia.
      specialize (Hnames p Hne).
      assert (Hnone : nodes w !! p = None) by (apply Hf; lia).
      rewrite Hnone in Hnames.
      destruct (nodes w1 !! p); [discriminate | done]. }
    destruct (IH w1 res Hd1 Hf1 Hr1) as (Hn2 & Hch2 & Hnm2 & Hold2).
    rewrite Hn1 in Hn2, Hch2, Hnm2, Hold2.
    split; [simpl; lia|]. split; [|split].
    + rewrite Hch2, Hch. destruct (nodes w !! d) as [dn|]; simpl; [|done].
      by rewrite <- app_assoc.
    + intros [|i] nm Hi; simpl in Hi.
      * injection Hi as <-. rewrite Nat.add_0_r.
        rewrite Hold2 by lia. exact Hc.
      * replace (nextNode w + S i)%nat with (S (nextNode w) + i)%nat by lia.
        by apply Hnm2.
    + intros p Hp. rewrite Hold2 by lia. apply Hnames. lia.
Qed.

(** C6: when [startReading] has gone through the entries of a
    directory, the children it inserted are, in this order, the entries
    of the entry map: i-numbers do not decrease along them (equal ones
    are allowed), every entry other than [.] and [..] is there as often
    as [readdir] returned it -- entries sharing an i-number included --
    and each has a child node of its own, the children being the nodes
    allocated one after the other during the pass. *)
Theorem children_in_inode_order (dirents : list dirent) (dn : FileInfo)
    (w res : World) :
  nodes w !! d = Some dn ->
  (forall p : ptr, (nextNode w <= p)%nat -> nodes w !! p = None) ->
  readEntries fs excludeMatch findByPath treeDevice crossFileSystems root
    d dirName (mm_iterate (buildEntryMap dirents)) w = (ScanDone, res) ->
  Sorted Z.le (fst <$> buildEntryMap dirents) /\
  buildEntryMap dirents ≡ₚ realEntries dirents /\
  children <$> nodes res !! d
    = Some (children dn
            ++ seq (nextNode w) (length (buildEntryMap dirents))) /\
  NoDup (seq (nextNode w) (length (buildEntryMap dirents))) /\
  (forall i ino nm, buildEntryMap dirents !! i = Some (ino, nm) ->
     name <$> nodes res !! (nextNode w + i)%nat = Some nm).
Proof.
  intros Hd Hf Hr.
  destruct (readEntries_done _ w res (mk_is_Some _ _ Hd) Hf Hr)
    as (_ & Hch & Hnm & _).
  unfold mm_iterate in *. rewrite length_map in Hch.
  split; [apply buildEntryMap_sorted|].
  split; [apply buildEntryMap_perm|].
  split; [by rewrite Hch, Hd|].
  split; [apply NoDup_seq|].
  intros i ino nm Hi. apply Hnm.
  change (map snd (buildEntryMap dirents)) with (snd <$> buildEntryMap dirents).
  by rewrite list_lookup_fmap, Hi.
Qed.
End ChildrenInOrder.

Lemma children_in_inode_order_witness :
  Sorted Z.le (fst <$> buildEntryMap tEntries) /\
  children <$> nodes tScan.2 !! 0%nat = Some [1; 2; 3; 4]%nat /\
  name <$> nodes tScan.2 !! 2%nat = Some "b".
Proof.
  assert (Hf : forall p : ptr, (nextNode tWorld <= p)%nat ->
                               nodes tWorld !! p = None).
  { intros p Hp. change (nodes tWorld) with (<[0%nat:=tNode]> (∅ : gmap ptr FileInfo)).
    change (nextNode tWorld) with 1%nat in Hp.
    rewrite lookup_insert_ne by lia. apply lookup_empty. }
  assert (Hr : readEntries tFs noExcludeRules noMounts "" false 9%nat 0%nat "/t"
                 (mm_iterate (buildEntryMap tEntries)) tWorld
               = (ScanDone, tScan.2)) by (vm_compute; reflexivity).
  destruct (children_in_inode_order tFs noExcludeRules noMounts "" false 9%nat
              0%nat "/t" tEntries tNode tWorld tScan.2 eq_refl Hf Hr)
    as (Hs & _ & Hc & _ & Hn).
  split; [exact Hs|]. split; [exact Hc|].
  exact (Hn 1%nat 5 "b" eq_refl).
Defined.

(** ** PkgReader: display names *)

Lemma str_app_assoc (a b c : string) : (a +:+ b) +:+ c = a +:+ (b +:+ c).
Proof.
  induction a as [|x a IH]; [reflexivity|].
  cbv [String.append]. fold String.append. by rewrite IH.
Qed.

Lemma str_app_nil_r (a : string) : a +:+ "" = a.
Proof.
  induction a as [|x a IH]; [reflexivity|].
  cbv [String.append]. fold String.append. by rewrite IH.
Qed.

Lemma sameKey_string (a b : string) :
  mm_sameKey String.ltb a b = true <-> a = b.
Proof.
  unfold mm_sameKey, String.ltb. split.
  - intros H. apply String.compare_eq_iff.
    rewrite (String.compare_antisym b a) in H.
    destruct (String.compare a b); simpl in H; done.
  - intros ->.
    assert (E : String.compare b b = Eq).
    { induction b as [|x b IH]; simpl; [done|].
      unfold Ascii.compare. by rewrite N.compare_refl. }
    by rewrite E.
Qed.

Lemma multiPkg_perm (key : ptr -> string) (l : list ptr) : forall acc,
  foldl (λ m pkg, mm_insert String.ltb (key pkg) pkg m) acc l
  ≡ₚ ((λ i, (key i, i)) <$> l) ++ acc.
Proof.
  induction l as [|x l IH]; intros acc; simpl; [done|].
  rewrite IH, mm_insert_perm. by rewrite Permutation_middle.
Qed.

Lemma filter_fmap_pairs (key : ptr -> string) (k : string) (l : list ptr) :
  snd <$> filter (λ kv : string * ptr, mm_sameKey String.ltb kv.1 k = true)
            ((λ i, (key i, i)) <$> l)
  = filter (λ i, key i = k) l.
Proof.
  induction l as [|x l IH]; [done|].
  rewrite fmap_cons, !filter_cons. simpl.
  destruct (decide (mm_sameKey String.ltb (key x) k = true)) as [E|E];
    destruct (decide (key x = k)) as [E'|E'].
  - rewrite fmap_cons. simpl. by rewrite IH.
  - exfalso. apply E'. by apply sameKey_string.
  - exfalso. apply E. by apply sameKey_string.
  - exact IH.
Qed.

(** The pointers [values( pkgName )] returns are those of the package list
    whose base name is [pkgName], in some order. *)
Lemma values_perm (key : ptr -> string) (k : string) (l : list ptr) :
  mm_values String.ltb k
    (foldl (λ m pkg, mm_insert String.ltb (key pkg) pkg m) [] l)
  ≡ₚ filter (λ i, key i = k) l.
Proof.
  unfold mm_values.
  change (map snd ?x) with (snd <$> x).
  rewrite (multiPkg_perm key l []), app_nil_r.
  by rewrite filter_fmap_pairs.
Qed.

Lemma uniqueKeys_complete {V} (m : list (string * V)) k v :
  (k, v) ∈ m -> k ∈ mm_uniqueKeys String.ltb m.
Proof.
  revert k v.
  induction m as [|[k0 v0] m IH]; intros k v; [by intros ?%elem_of_nil|].
  intros Hin. simpl. destruct m as [|[k1 v1] m'].
  - apply elem_of_cons in Hin as [[= -> ->]|?%elem_of_nil]; [left | done].
  - destruct (mm_sameKey String.ltb k0 k1) eqn:E.
    + apply elem_of_cons in Hin as [[= -> ->]|Hin]; [|by apply (IH k v)].
      apply sameKey_string in E as ->. apply (IH k1 v1). left.
    + apply elem_of_cons in Hin as [[= -> ->]|Hin];
        [left | right; by apply (IH k v)].
Qed.

Lemma uniqueKeys_sound {V} (m : list (string * V)) k :
  k ∈ mm_uniqueKeys String.ltb m -> exists v, (k, v) ∈ m.
Proof.
  induction m as [|[k0 v0] m IH]; [by intros ?%elem_of_nil|].
  simpl. destruct m as [|[k1 v1] m'].
  - intros [->|?%elem_of_nil]%elem_of_cons; [|done]. exists v0. left.
  - destruct (mm_sameKey String.ltb k0 k1).
    + intros [v Hv]%IH. exists v. by right.
    + intros [->|[v Hv]%IH]%elem_of_cons; [exists v0; left | exists v; by right].
Qed.

Lemma renamePkg_idem k sv sa p :
  renamePkg k sv sa (renamePkg k sv sa p) = renamePkg k sv sa p.
Proof. by destruct sv, sa. Qed.

Lemma renamePkg_core k sv sa p :
  pkg_baseName (renamePkg k sv sa p) = pkg_baseName p /\
  pkg_version (renamePkg k sv sa p) = pkg_version p /\
  pkg_arch (renamePkg k sv sa p) = pkg_arch p.
Proof. by destruct sv, sa. Qed.

Lemma foldl_alter_lookup (f : PkgInfo -> PkgInfo) (l : list ptr) :
  (forall p, f (f p) = f p) ->
  forall (h : gmap ptr PkgInfo) i,
    foldl (λ h j, alter f j h) h l !! i
    = if decide (i ∈ l) then f <$> h !! i else h !! i.
Proof.
  intros Hf. induction l as [|j l IH]; intros h i; simpl.
  - destruct (decide (i ∈ [])) as [?%elem_of_nil|]; done.
  - rewrite IH. rewrite lookup_alter.
    destruct (decide (j = i)) as [->|Hji].
    + destruct (decide (i ∈ i :: l)) as [_|Hn]; [|exfalso; apply Hn; left].
      destruct (decide (i ∈ l)); [|done].
      destruct (h !! i); simpl; [by rewrite Hf | done].
    + destruct (decide (i ∈ l)) as [Hin|Hn];
        destruct (decide (i ∈ j :: l)) as [Hin'|Hn']; try done.
      * exfalso. apply Hn'. by right.
      * apply elem_of_cons in Hin' as [->|?]; done.
Qed.

Lemma forallb_elem {A} (f : A -> bool) (l : list A) :
  forallb f l = true <-> forall x, x ∈ l -> f x = true.
Proof.
  rewrite forallb_forall. split; intros H x Hx; apply H;
    by apply list_elem_of_In.
Qed.

Lemma sameFlags_fold (P Q : ptr -> bool) (l : list ptr) : forall a b : bool,
  foldl (λ '(sv, sa) pkg,
           (if negb (P pkg) then false else sv,
            if negb (Q pkg) then false else sa)) (a, b) l
  = (a && forallb P l, b && forallb Q l).
Proof.
  induction l as [|x l IH]; intros a b; simpl.
  - by rewrite !andb_true_r.
  - rewrite IH. by destruct (P x), (Q x), a, b.
Qed.

Lemma renameStep_eq (k : string) (sv sa : bool) (h : gmap ptr PkgInfo)
    (pkg : ptr) :
  (let name := k in
   let '(name, h) :=
     if negb sv
     then (name +:+ "-" +:+ pkg_version (h !!! pkg),
           alter (setMultiVersion true) pkg h)
     else (name, h) in
   let '(name, h) :=
     if negb sa
     then (name +:+ ":" +:+ pkg_arch (h !!! pkg),
           alter (setMultiArch true) pkg h)
     else (name, h) in
   alter (setName name) pkg h)
  = alter (renamePkg k sv sa) pkg h.
Proof.
  apply map_eq. intros i.
  destruct (decide (pkg = i)) as [->|Hne].
  - destruct sv, sa; simpl;
      rewrite ?lookup_total_alt, ?lookup_alter_eq;
      destruct (h !! i) as [p|]; done.
  - destruct sv, sa; simpl; by rewrite ?lookup_alter_ne.
Qed.

Lemma createDisplayName_eq (mm : list (string * ptr)) (k : string)
    (h : gmap ptr PkgInfo) :
  createDisplayName mm k h =
  let L := mm_values String.ltb k mm in
  if (length L <? 2)%nat then h
  else foldl (λ h' j, alter (renamePkg k (sameField pkg_version h L)
                                         (sameField pkg_arch h L)) j h') h L.
Proof.
  unfold createDisplayName. cbv zeta.
  destruct (length _ <? 2)%nat; [done|].
  rewrite sameFlags_fold. simpl andb. cbv iota beta.
  fold (sameField pkg_version h (mm_values String.ltb k mm)).
  fold (sameField pkg_arch h (mm_values String.ltb k mm)).
  generalize (sameField pkg_version h (mm_values String.ltb k mm)) as sv.
  generalize (sameField pkg_arch h (mm_values String.ltb k mm)) as sa.
  intros sa sv. generalize h.
  induction (mm_values String.ltb k mm) as [|j L IH]; intros h0; [done|].
  simpl. rewrite <- IH. f_equal. apply renameStep_eq.
Qed.

Lemma lookup_total_core (h h0 : gmap ptr PkgInfo) (i : ptr) :
  pkgCore <$> h !! i = pkgCore <$> h0 !! i ->
  pkgCore (h !!! i) = pkgCore (h0 !!! i).
Proof.
  rewrite !lookup_total_alt.
  destruct (h !! i), (h0 !! i); simpl; intros E; try done.
  by apply (inj Some) in E.
Qed.

Lemma forallb_pointwise {A} (f g : A -> bool) (l : list A) :
  (forall x, f x = g x) -> forallb f l = forallb g l.
Proof. intros H. induction l as [|x l IH]; simpl; [done|]. by rewrite H, IH. Qed.

Lemma sameField_core (h h0 : gmap ptr PkgInfo) (L : list ptr) :
  (forall i, pkgCore <$> h !! i = pkgCore <$> h0 !! i) ->
  sameField pkg_version h L = sameField pkg_version h0 L /\
  sameField pkg_arch h L = sameField pkg_arch h0 L.
Proof.
  intros Hc.
  assert (Hv : forall i, pkg_version (h !!! i) = pkg_version (h0 !!! i)).
  { intros i. pose proof (lookup_total_core h h0 i (Hc i)) as E.
    unfold pkgCore in E. congruence. }
  assert (Ha : forall i, pkg_arch (h !!! i) = pkg_arch (h0 !!! i)).
  { intros i. pose proof (lookup_total_core h h0 i (Hc i)) as E.
    unfold pkgCore in E. congruence. }
  unfold sameField. split.
  - apply forallb_pointwise. intros j. by rewrite !Hv.
  - apply forallb_pointwise. intros j. by rewrite !Ha.
Qed.

Lemma filter_fmap_total (heap : gmap ptr PkgInfo) (b : string) (l : list ptr) :
  (λ i, heap !!! i) <$> filter (λ i, pkg_baseName (heap !!! i) = b) l
  = filter (λ p, pkg_baseName p = b) ((λ i, heap !!! i) <$> l).
Proof.
  induction l as [|x l IH]; [done|].
  rewrite fmap_cons, !filter_cons.
  destruct (decide (pkg_baseName (heap !!! x) = b)); [|done].
  by rewrite fmap_cons, IH.
Qed.

(** Agreement with the first member is agreement of all members. *)
Lemma sameField_allShare (f : PkgInfo -> string) (heap : gmap ptr PkgInfo)
    (L : list ptr) (G : list PkgInfo) :
  L ≠ [] -> G ≡ₚ (λ i, heap !!! i) <$> L ->
  sameField f heap L = allShare f G.
Proof.
  intros HL HG. apply eq_true_iff_eq.
  unfold sameField, allShare. rewrite !forallb_elem.
  destruct L as [|x L]; [done|]. simpl.
  split.
  - intros H a Ha. apply forallb_elem. intros b Hb.
    rewrite HG in Ha, Hb. apply String.eqb_eq.
    assert (Hall : forall c, c ∈ (λ i, heap !!! i) <$> x :: L ->
                             f c = f (heap !!! x)).
    { intros c [j [-> Hj]]%list_elem_of_fmap.
      apply elem_of_cons in Hj as [->|Hj]; [done|].
      by apply String.eqb_eq, H. }
    by rewrite (Hall a Ha), (Hall b Hb).
  - intros H j Hj.
    assert (Hx : heap !!! x ∈ G) by (rewrite HG; left).
    assert (Hj' : heap !!! j ∈ G).
    { rewrite HG. right. apply list_elem_of_fmap. eauto. }
    pose proof (H _ Hj') as E. rewrite forallb_elem in E. by apply E.
Qed.

Section HandleMultiPkg.
Variable _pkgList : list ptr.
Variable heap : gmap ptr PkgInfo.

Let key (i : ptr) : string := pkg_baseName (heap !!! i).
Let mm : list (string * ptr) :=
  foldl (λ m pkg, mm_insert String.ltb (key pkg) pkg m) [] _pkgList.
Let L (k : string) : list ptr := mm_values String.ltb k mm.
Let T (k : string) : PkgInfo -> PkgInfo :=
  if (length (L k) <? 2)%nat then id
  else renamePkg k (sameField pkg_version heap (L k))
                   (sameField pkg_arch heap (L k)).

Lemma in_values (k : string) (i : ptr) :
  i ∈ L k <-> i ∈ _pkgList /\ key i = k.
Proof.
  unfold L, mm. rewrite (values_perm key k _pkgList).
  rewrite list_elem_of_filter. tauto.
Qed.

Lemma T_idem k p : T k (T k p) = T k p.
Proof.
  unfold T. destruct (length (L k) <? 2)%nat; [done|].
  apply renamePkg_idem.
Qed.

Lemma T_core k p : pkgCore (T k p) = pkgCore p.
Proof.
  unfold T. destruct (length (L k) <? 2)%nat; [done|].
  unfold pkgCore.
  destruct (renamePkg_core k (sameField pkg_version heap (L k))
              (sameField pkg_arch heap (L k)) p) as (-> & -> & ->). done.
Qed.

Lemma createDisplayName_lookup (k : string) (h : gmap ptr PkgInfo) (i : ptr) :
  (forall j, pkgCore <$> h !! j = pkgCore <$> heap !! j) ->
  createDisplayName mm k h !! i
  = if decide (i ∈ L k) then T k <$> h !! i else h !! i.
Proof.
  intros Hc. rewrite createDisplayName_eq. cbv zeta. fold (L k).
  destruct (sameField_core h heap (L k) Hc) as [-> ->].
  unfold T. destruct (length (L k) <? 2)%nat.
  - destruct (decide (i ∈ L k)); [|done]. by destruct (h !! i).
  - apply foldl_alter_lookup. apply renamePkg_idem.
Qed.

Lemma handleMultiPkg_keys (ks : list string) (i : ptr) :
  foldl (λ h k, createDisplayName mm k h) heap ks !! i
  = if decide (i ∈ _pkgList /\ key i ∈ ks)
    then T (key i) <$> heap !! i else heap !! i.
Proof.
  revert i. induction ks as [|k ks IH] using rev_ind; intros i.
  - simpl. destruct (decide _) as [[_ ?%elem_of_nil]|]; done.
  - rewrite foldl_app. simpl.
    rewrite createDisplayName_lookup.
    2:{ intros j. rewrite IH. destruct (decide _); [|done].
        destruct (heap !! j); simpl; [by rewrite T_core | done]. }
    rewrite IH.
    destruct (decide (i ∈ L k)) as [Hin|Hn].
    + apply in_values in Hin as [Hi Hk].
      destruct (decide (i ∈ _pkgList ∧ key i ∈ ks ++ [k])) as [_|Hno].
      2:{ exfalso. apply Hno. split; [done|].
          apply elem_of_app. right. rewrite Hk. left. }
      destruct (decide (i ∈ _pkgList ∧ key i ∈ ks)); rewrite <- Hk;
        [|done].
      destruct (heap !! i); simpl; [by rewrite T_idem | done].
    + destruct (decide (i ∈ _pkgList ∧ key i ∈ ks)) as [[Hi Hk]|Hno];
        destruct (decide (i ∈ _pkgList ∧ key i ∈ ks ++ [k])) as [[Hi' Hk']|Hno'];
        try done.
      * exfalso. apply Hno'. split; [done|]. apply elem_of_app. by left.
      * exfalso. apply elem_of_app in Hk' as [?|Hk'].
        -- by apply Hno.
        -- apply list_elem_of_singleton in Hk'. apply Hn.
           by apply in_values.
Qed.

Lemma key_in_uniqueKeys (i : ptr) :
  i ∈ _pkgList -> key i ∈ mm_uniqueKeys String.ltb mm.
Proof.
  intros Hi. apply (uniqueKeys_complete mm (key i) i).
  unfold mm. rewrite (multiPkg_perm key _pkgList []), app_nil_r.
  apply list_elem_of_fmap. eauto.
Qed.

Lemma T_disambiguated (i : ptr) (p : PkgInfo) :
  i ∈ _pkgList -> heap !! i = Some p ->
  T (key i) p = disambiguated (groupOf _pkgList heap (pkg_baseName p)) p.
Proof.
  intros Hi Hp.
  assert (Hk : key i = pkg_baseName p).
  { unfold key. by rewrite lookup_total_alt, Hp. }
  rewrite Hk.
  assert (HG : groupOf _pkgList heap (pkg_baseName p)
               ≡ₚ (λ j, heap !!! j) <$> L (pkg_baseName p)).
  { unfold groupOf, L, mm. rewrite (values_perm key _ _pkgList).
    unfold key. by rewrite filter_fmap_total. }
  assert (HL : L (pkg_baseName p) ≠ []).
  { intros E. assert (Hin : i ∈ L (pkg_baseName p)) by (by apply in_values).
    rewrite E in Hin. by apply elem_of_nil in Hin. }
  unfold T, disambiguated.
  rewrite (Permutation_length HG), length_fmap.
  destruct (length (L (pkg_baseName p)) <? 2)%nat; [done|].
  rewrite <- (sameField_allShare pkg_version heap _ _ HL HG).
  rewrite <- (sameField_allShare pkg_arch heap _ _ HL HG).
  unfold renamePkg, setName, setMultiVersion, setMultiArch.
  destruct (sameField pkg_version _ _), (sameField pkg_arch _ _); simpl;
    by rewrite ?str_app_nil_r, ?str_app_assoc.
Qed.

(** C8: [handleMultiPkg] gives every package of the list the display
    name of the rule "group by base name; a package alone in its group
    is left as it is; in a group of two or more, when the members do not
    all share one version every member gets [-<version>] appended and
    its multi-version flag set, and when they do not all share one
    architecture every member gets [:<arch>] appended as well and its
    multi-arch flag set". *)
Theorem handleMultiPkg_display_names (i : ptr) (p : PkgInfo) :
  i ∈ _pkgList -> heap !! i = Some p ->
  handleMultiPkg _pkgList heap !! i
  = Some (disambiguated (groupOf _pkgList heap (pkg_baseName p)) p).
Proof.
  intros Hi Hp. unfold handleMultiPkg. cbv zeta. fold key. fold mm.
  rewrite handleMultiPkg_keys.
  destruct (decide _) as [_|Hno].
  - rewrite Hp. simpl. f_equal. by apply T_disambiguated.
  - exfalso. apply Hno. split; [done|]. by apply key_in_uniqueKeys.
Qed.
End HandleMultiPkg.

Lemma handleMultiPkg_display_names_witness :
  pkg_name <$> handleMultiPkg [0; 1; 2]%nat examplePkgs !! 0%nat = Some "foo-1.0" /\
  pkg_name <$> handleMultiPkg [0; 1; 2]%nat examplePkgs !! 1%nat = Some "foo-2.0" /\
  pkg_name <$> handleMultiPkg [0; 1; 2]%nat examplePkgs !! 2%nat = Some "bar".
Proof.
  assert (H0 : (0%nat : ptr) ∈ [0; 1; 2]%nat) by (apply list_elem_of_In; simpl; tauto).
  assert (H1 : (1%nat : ptr) ∈ [0; 1; 2]%nat) by (apply list_elem_of_In; simpl; tauto).
  assert (H2 : (2%nat : ptr) ∈ [0; 1; 2]%nat) by (apply list_elem_of_In; simpl; tauto).
  pose proof (handleMultiPkg_display_names [0; 1; 2]%nat examplePkgs 0%nat
                (new_PkgInfo "foo" "1.0" "x86_64") H0 eq_refl) as E0.
  pose proof (handleMultiPkg_display_names [0; 1; 2]%nat examplePkgs 1%nat
                (new_PkgInfo "foo" "2.0" "x86_64") H1 eq_refl) as E1.
  pose proof (handleMultiPkg_display_names [0; 1; 2]%nat examplePkgs 2%nat
                (new_PkgInfo "bar" "1.0" "x86_64") H2 eq_refl) as E2.
  split; [exact (f_equal (fmap pkg_name) E0)|].
  split; [exact (f_equal (fmap pkg_name) E1) | exact (f_equal (fmap pkg_name) E2)].
Defined.

(** ** Subtrees and killAll *)

Lemma size_same_links (m m' : gmap ptr FileInfo) :
  (forall q, parent <$> m' !! q = parent <$> m !! q) ->
  base.size m' = base.size m.
Proof.
  intros H. rewrite <- !size_dom. f_equal.
  apply set_eq. intros q. rewrite !elem_of_dom.
  specialize (H q). destruct (m' !! q), (m !! q); simpl in H;
    try discriminate; split; intros [? ?]; eauto; discriminate.
Qed.

Lemma isInSubtree_from_links (m m' : gmap ptr FileInfo) (s : ptr) :
  (forall q, parent <$> m' !! q = parent <$> m !! q) ->
  forall fuel p, isInSubtree_from fuel m' p s = isInSubtree_from fuel m p s.
Proof.
  intros H. induction fuel as [|fuel IH]; intros p; simpl; [done|].
  destruct (decide (p = s)) as [|Hps]; [done|].
  specialize (H p). destruct (m' !! p) as [n'|], (m !! p) as [n0|];
    simpl in H; try discriminate; [|done].
  injection H as ->. destruct (parent n0); [apply IH | done].
Qed.

Lemma isInSubtree_links (w w' : World) (p s : ptr) :
  (forall q, parent <$> nodes w' !! q = parent <$> nodes w !! q) ->
  isInSubtree w' p s = isInSubtree w p s.
Proof.
  intros H. unfold isInSubtree.
  rewrite (size_same_links _ _ H). by apply isInSubtree_from_links.
Qed.

Lemma isInSubtree_refl (w : World) (s : ptr) : isInSubtree w s s = true.
Proof.
  unfold isInSubtree. destruct (base.size (nodes w)); simpl;
    by destruct (decide (s = s)).
Qed.

Lemma inKillZone_same (w w' : World) s ex j :
  nodes w' = nodes w -> jobs w' !! j = jobs w !! j ->
  inKillZone w' s ex j = inKillZone w s ex j.
Proof.
  intros Hn Hj. unfold inKillZone, jobDir. rewrite Hj.
  destruct (decide (ex = Some j)); [done|].
  destruct (jobs w !! j) as [job|]; [|done].
  destruct (_dir job); [|done].
  apply isInSubtree_links. intros q. by rewrite Hn.
Qed.

Lemma inKillZone_dead (w : World) s ex j :
  jobs w !! j = None -> inKillZone w s ex j = false.
Proof.
  intros Hj. unfold inKillZone, jobDir. rewrite Hj.
  by destruct (decide (ex = Some j)).
Qed.

Lemma filter_false_ext (f g : ptr -> bool) (l : list ptr) :
  (forall x, x ∈ l -> f x = g x) ->
  filter (λ x, f x = false) l = filter (λ x, g x = false) l.
Proof.
  induction l as [|a l IH]; intros H; [done|].
  rewrite !filter_cons, (H a) by left.
  rewrite IH by (intros x Hx; apply H; by right). done.
Qed.

(** One pass over a job list: only jobs change; the jobs of the list that
    are in the zone are deleted, all others are as before; a list without
    repetitions keeps exactly its jobs outside the zone. *)
Lemma killPass_spec s ex (l : list ptr) : forall w,
  nodes (killPass s ex l w).2 = nodes w /\
  nextNode (killPass s ex l w).2 = nextNode w /\
  nextJob (killPass s ex l w).2 = nextJob w /\
  q_queue (killPass s ex l w).2 = q_queue w /\
  q_blocked (killPass s ex l w).2 = q_blocked w /\
  q_timer (killPass s ex l w).2 = q_timer w /\
  events (killPass s ex l w).2 = events w /\
  (forall j, jobs (killPass s ex l w).2 !! j
             = if decide (j ∈ l /\ inKillZone w s ex j = true)
               then None else jobs w !! j) /\
  (NoDup l ->
   (killPass s ex l w).1 = filter (λ j, inKillZone w s ex j = false) l).
Proof.
  induction l as [|x l IH]; intros w.
  - simpl. repeat split; try done.
  - simpl. destruct (inKillZone w s ex x) eqn:Ex.
    + destruct (IH (deleteJob x w)) as (H1 & H2 & H3 & H4 & H5 & H6 & H7 & H8 & H9).
      repeat split; try done.
      * intros j. rewrite H8.
        destruct (decide (j = x)) as [->|Hjx].
        -- destruct (decide (x ∈ x :: l ∧ inKillZone w s ex x = true))
             as [_|Hn]; [|exfalso; apply Hn; split; [left | done]].
           destruct (decide _); [done|]. simpl. apply lookup_delete_eq.
        -- rewrite (inKillZone_same w (deleteJob x w) s ex j eq_refl)
             by (simpl; by rewrite lookup_delete_ne).
           simpl. rewrite lookup_delete_ne by done.
           destruct (decide (j ∈ l ∧ inKillZone w s ex j = true)) as [[? ?]|Hn];
             destruct (decide (j ∈ x :: l ∧ inKillZone w s ex j = true))
               as [[Hin ?]|Hn']; try done.
           ++ exfalso. apply Hn'. split; [by right | done].
           ++ exfalso. apply Hn. split; [|done].
              apply elem_of_cons in Hin as [?|?]; done.
      * intros [Hx Hnd]%NoDup_cons. rewrite (H9 Hnd).
        rewrite filter_cons. destruct (decide _) as [E|_]; [congruence|].
        apply filter_false_ext. intros j Hj.
        apply (inKillZone_same w (deleteJob x w) s ex j eq_refl).
        simpl. apply lookup_delete_ne. intros ->. done.
    + destruct (killPass s ex l w) as [kept w'] eqn:Ek.
      destruct (IH w) as (H1 & H2 & H3 & H4 & H5 & H6 & H7 & H8 & H9).
      rewrite Ek in *. simpl in *.
      repeat split; try done.
      * intros j. rewrite H8.
        destruct (decide (j ∈ l ∧ inKillZone w s ex j = true)) as [[? ?]|Hn];
          destruct (decide (j ∈ x :: l ∧ inKillZone w s ex j = true))
            as [[Hin Hz]|Hn']; try done.
        -- exfalso. apply Hn'. split; [by right | done].
        -- exfalso. apply Hn. split; [|done].
           apply elem_of_cons in Hin as [->|?]; [congruence | done].
      * intros [Hx Hnd]%NoDup_cons. rewrite (H9 Hnd).
        rewrite filter_cons. by destruct (decide _).
Qed.

Lemma killAll_frame s ex w :
  nodes (killAll s ex w) = nodes w /\
  nextNode (killAll s ex w) = nextNode w /\
  nextJob (killAll s ex w) = nextJob w /\
  q_timer (killAll s ex w) = q_timer w /\
  events (killAll s ex w) = events w.
Proof.
  destruct s as [s|]; [|done]. unfold killAll.
  destruct (killPass s ex (q_queue w) w) as [q w1] eqn:E1.
  destruct (killPass_spec s ex (q_queue w) w) as (H1 & H2 & H3 & _ & _ & H6 & H7 & _).
  rewrite E1 in *. simpl in *.
  destruct (killPass s ex (q_blocked w1) (set_queue (λ _, q) w1)) as [b w3] eqn:E3.
  destruct (killPass_spec s ex (q_blocked w1) (set_queue (λ _, q) w1))
    as (G1 & G2 & G3 & _ & _ & G6 & G7 & _).
  rewrite E3 in *. simpl in *.
  repeat split; congruence.
Qed.

(** [killAll]: a job is deleted exactly when it is in one of the two
    lists and in the zone -- bound inside the subtree and not the
    excepted job; lists without repetitions keep their other jobs. *)
Lemma killAll_spec s ex w :
  (forall j, jobs (killAll (Some s) ex w) !! j
             = if decide ((j ∈ q_queue w \/ j ∈ q_blocked w)
                          /\ inKillZone w s ex j = true)
               then None else jobs w !! j) /\
  (NoDup (q_queue w ++ q_blocked w) ->
   q_queue (killAll (Some s) ex w)
     = filter (λ j, inKillZone w s ex j = false) (q_queue w) /\
   q_blocked (killAll (Some s) ex w)
     = filter (λ j, inKillZone w s ex j = false) (q_blocked w)).
Proof.
  unfold killAll.
  destruct (killPass s ex (q_queue w) w) as [q w1] eqn:E1.
  destruct (killPass_spec s ex (q_queue w) w)
    as (H1 & _ & _ & _ & H5 & _ & _ & H8 & H9).
  rewrite E1 in *. simpl in *.
  set (w2 := set_queue (λ _, q) w1) in *.
  destruct (killPass s ex (q_blocked w1) w2) as [b w3] eqn:E3.
  destruct (killPass_spec s ex (q_blocked w1) w2)
    as (G1 & _ & _ & G4 & _ & _ & _ & G8 & G9).
  rewrite E3 in *. simpl in *.
  assert (Hz : forall j, inKillZone w2 s ex j
                 = if decide (j ∈ q_queue w /\ inKillZone w s ex j = true)
                   then false else inKillZone w s ex j).
  { intros j. destruct (decide _) as [Hd|Hd].
    - apply inKillZone_dead. subst w2. simpl. rewrite H8.
      by destruct (decide _).
    - apply inKillZone_same; [done|]. subst w2. simpl. rewrite H8.
      by destruct (decide _). }
  split.
  - intros j. rewrite G8. change (jobs w2) with (jobs w1).
    rewrite H8, Hz, H5.
    destruct (decide (j ∈ q_queue w ∧ inKillZone w s ex j = true)) as [[? ?]|Hq].
    + destruct (decide (j ∈ q_blocked w ∧ false = true)) as [[_ ?]|_]; [done|].
      destruct (decide _) as [_|Hn]; [done|]. exfalso. apply Hn. auto.
    + destruct (decide (j ∈ q_blocked w ∧ inKillZone w s ex j = true))
        as [[? ?]|Hb].
      * destruct (decide _) as [_|Hn]; [done|]. exfalso. apply Hn. auto.
      * destruct (decide _) as [[[?|?] ?]|_]; [| |done].
        -- exfalso. by apply Hq.
        -- exfalso. by apply Hb.
  - intros Hnd. apply NoDup_app in Hnd as (Hq & Hdisj & Hb).
    split.
    + rewrite G4. subst w2. simpl. by apply H9.
    + rewrite H5 in G9. rewrite (G9 Hb). apply filter_false_ext.
      intros x Hx. rewrite Hz. destruct (decide _) as [[Hin _]|_]; [|done].
      exfalso. by apply (Hdisj x).
Qed.

(** X3: after [killAll( subtree )] without an excepted job, no job of
    either list that is still alive is bound inside the subtree. *)
Lemma killAll_clears_subtree s w j job d :
  j ∈ q_queue w \/ j ∈ q_blocked w ->
  jobs (killAll (Some s) None w) !! j = Some job ->
  _dir job = Some d ->
  isInSubtree w d s = false.
Proof.
  intros Hin Hj Hd. destruct (killAll_spec s None w) as [Hjobs _].
  rewrite Hjobs in Hj. destruct (decide _) as [|Hn]; [done|].
  destruct (isInSubtree w d s) eqn:E; [|done].
  exfalso. apply Hn. split; [done|].
  unfold inKillZone, jobDir. rewrite Hj, Hd. by destruct (decide _).
Qed.

Lemma killPass_kept_subset s ex (l : list ptr) : forall w x,
  x ∈ (killPass s ex l w).1 -> x ∈ l.
Proof.
  induction l as [|y l IH]; intros w x; simpl; [done|].
  destruct (inKillZone w s ex y).
  - intros H. right. by apply (IH _ _ H).
  - destruct (killPass s ex l w) as [kept w'] eqn:E. simpl.
    intros [->|H]%elem_of_cons; [left | right].
    apply (IH w x). by rewrite E.
Qed.

Lemma killPass_keeps s ex (l : list ptr) : forall w x,
  x ∈ l -> inKillZone w s ex x = false -> x ∈ (killPass s ex l w).1.
Proof.
  induction l as [|y l IH]; intros w x Hin Hz; simpl; [done|].
  destruct (inKillZone w s ex y) eqn:Ey.
  - apply elem_of_cons in Hin as [->|Hin]; [congruence|].
    apply IH; [done|].
    rewrite (inKillZone_same w (deleteJob y w) s ex x eq_refl); [done|].
    simpl. apply lookup_delete_ne. intros ->. congruence.
  - destruct (killPass s ex l w) as [kept w'] eqn:E. simpl.
    apply elem_of_cons in Hin as [->|Hin]; [left | right].
    specialize (IH w x Hin Hz). by rewrite E in IH.
Qed.

(** [killAll] never adds to a list, and a job outside the zone keeps its
    place in the runnable list. *)
Lemma killAll_lists s ex w :
  (forall x, x ∈ q_queue (killAll (Some s) ex w) -> x ∈ q_queue w) /\
  (forall x, x ∈ q_blocked (killAll (Some s) ex w) -> x ∈ q_blocked w) /\
  (forall x, x ∈ q_queue w -> inKillZone w s ex x = false ->
             x ∈ q_queue (killAll (Some s) ex w)).
Proof.
  unfold killAll.
  destruct (killPass s ex (q_queue w) w) as [q w1] eqn:E1.
  destruct (killPass_spec s ex (q_queue w) w)
    as (_ & _ & _ & _ & H5 & _).
  pose proof (killPass_kept_subset s ex (q_queue w) w) as Hsub.
  pose proof (killPass_keeps s ex (q_queue w) w) as Hkeep.
  rewrite E1 in *. simpl in *.
  set (w2 := set_queue (λ _, q) w1) in *.
  destruct (killPass s ex (q_blocked w1) w2) as [b w3] eqn:E3.
  destruct (killPass_spec s ex (q_blocked w1) w2)
    as (_ & _ & _ & G4 & _).
  pose proof (killPass_kept_subset s ex (q_blocked w1) w2) as Gsub.
  rewrite E3 in *. simpl in *.
  split; [|split].
  - intros x. rewrite G4. subst w2. simpl. apply Hsub.
  - intros x Hx. rewrite <- H5. by apply Gsub.
  - intros x Hx Hz. rewrite G4. subst w2. simpl. by apply Hkeep.
Qed.

Lemma deletingChildNotify_frame c w :
  nodes (deletingChildNotify c w) = nodes w /\
  nextNode (deletingChildNotify c w) = nextNode w /\
  events (deletingChildNotify c w) = events w.
Proof.
  destruct c as [c|]; [|done]. unfold deletingChildNotify.
  destruct (nodes w !! c) as [n|]; [|done].
  destruct (decide _); [done|].
  destruct (killAll_frame (Some c) None w) as (? & ? & _ & _ & ?). done.
Qed.

Lemma deletingChildNotify_jobs c w :
  (forall j, inKillZone w c None j = false ->
             jobs (deletingChildNotify (Some c) w) !! j = jobs w !! j) /\
  (forall j, jobs w !! j = None ->
             jobs (deletingChildNotify (Some c) w) !! j = None) /\
  (forall x, x ∈ q_queue (deletingChildNotify (Some c) w) -> x ∈ q_queue w) /\
  (forall x, x ∈ q_blocked (deletingChildNotify (Some c) w) -> x ∈ q_blocked w) /\
  (forall x, x ∈ q_queue w -> inKillZone w c None x = false ->
             x ∈ q_queue (deletingChildNotify (Some c) w)).
Proof.
  unfold deletingChildNotify.
  destruct (nodes w !! c) as [n|]; [|done].
  destruct (decide _); [done|].
  destruct (killAll_spec c None w) as [Hj _].
  destruct (killAll_lists c None w) as (Hq & Hb & Hk).
  repeat split; try done.
  - intros j Hz. rewrite Hj. destruct (decide _) as [[_ ?]|]; [congruence | done].
  - intros j Hn. rewrite Hj. by destruct (decide _).
Qed.

(** [deleteSubtree] frees the nodes inside the subtree and unlinks its
    root from the parent; every other node is untouched. *)
Lemma deleteSubtree_nodes d w p :
  nodes (deleteSubtree d w) !! p
  = if isInSubtree w p d then None
    else if decide (nodeParent w d = Some p)
         then withChildren (filter (λ x, x ≠ d)) <$> nodes w !! p
         else nodes w !! p.
Proof.
  unfold deleteSubtree.
  set (w2 := deletingChildNotify (Some d) (emit (deletingChild d) w)).
  assert (Hn2 : nodes w2 = nodes w)
    by (subst w2; by destruct (deletingChildNotify_frame (Some d)
                                 (emit (deletingChild d) w)) as [-> _]).
  clearbody w2.
  set (w3 := match nodeParent w d with
             | Some p0 => dropChildLink d p0 w2
             | None => w2
             end).
  assert (Hn3 : forall q, nodes w3 !! q
            = if decide (nodeParent w d = Some q)
              then withChildren (filter (λ x, x ≠ d)) <$> nodes w !! q
              else nodes w !! q).
  { intros q. subst w3. destruct (nodeParent w d) as [up|]; simpl.
    - rewrite Hn2, lookup_alter.
      destruct (decide (up = q)) as [->|];
        destruct (decide (Some _ = Some q)) as [E|E]; try done; congruence.
    - by rewrite Hn2. }
  assert (Hlinks : forall q, parent <$> nodes w3 !! q = parent <$> nodes w !! q).
  { intros q. rewrite Hn3. destruct (decide _); [|done].
    by destruct (nodes w !! q). }
  clearbody w3. unfold freeSubtree. simpl.
  rewrite map_lookup_filter. simpl.
  rewrite (isInSubtree_links w w3 p d Hlinks), Hn3.
  destruct (isInSubtree w p d).
  - destruct (decide _); destruct (nodes w !! p); simpl; try done;
      by rewrite option_guard_False.
  - destruct (decide _); destruct (nodes w !! p); simpl; try done;
      by rewrite option_guard_True.
Qed.

(** ** LocalDirReadJob::readCacheFile *)

(** The world in which [readCacheFile] calls [killAll] when the cache file
    is used for a directory that is not the top level. *)
Lemma readCacheFile_preempt_eq (fs : FileSystem) (root d : ptr) (dn : FileInfo)
    (dirName cacheFileName : string) (w : World) :
  nodes w !! d = Some dn ->
  cr_ok (fs_cache fs (fullName dirName cacheFileName)) = true ->
  String.eqb (cr_firstDir (fs_cache fs (fullName dirName cacheFileName)))
             dirName = true ->
  parent dn ≠ Some root ->
  exists w5,
    readCacheFile fs root d dirName cacheFileName w
      = (Some true, deleteSubtree d (killAll (Some d) (Some (nextJob w)) w5)) /\
    (forall q, nodes w5 !! q
               = if decide (parent dn = Some q)
                 then withReadState DirReading <$> nodes w !! q
                 else nodes w !! q) /\
    jobs w5 !! nextJob w
      = Some (preemptingCacheJob fs w d (fullName dirName cacheFileName)) /\
    (forall j, j ≠ nextJob w -> jobs w5 !! j = jobs w !! j) /\
    q_queue w5 = q_queue w ++ [nextJob w] /\
    q_blocked w5 = q_blocked w /\
    (forall e, e ∈ events w -> e ∈ events w5).
Proof.
  intros Hd Hok Hfirst Htop.
  unfold readCacheFile, new_CacheReadJob_file, newJob, jobReader,
    CacheReadJob_init, preemptingCacheJob, isTopLevel, nodeParent, addJob,
    enqueue.
  destruct w as [ns nn js nj q b t ev]. simpl in *.
  rewrite lookup_insert_eq. simpl. rewrite Hok, Hfirst.
  destruct t; simpl; rewrite Hd; rewrite bool_decide_eq_false_2 by done;
    (eexists; split; [reflexivity|]);
    destruct (parent dn) as [up|] eqn:Ep; simpl;
    (split; [|split; [|split; [|split; [done|split; [done|]]]]]);
    try (intros j Hj; by nodesimp); try (by nodesimp);
    try (nodesimp; simpl; by rewrite ?Hok);
    try (intros q0; rewrite ?lookup_alter;
         repeat destruct (decide _); try done; congruence);
    try (intros e He; apply elem_of_app; by left).
Qed.

Lemma deleteSubtree_queue d w :
  jobs (deleteSubtree d w)
    = jobs (deletingChildNotify (Some d) (emit (deletingChild d) w)) /\
  q_queue (deleteSubtree d w)
    = q_queue (deletingChildNotify (Some d) (emit (deletingChild d) w)) /\
  q_blocked (deleteSubtree d w)
    = q_blocked (deletingChildNotify (Some d) (emit (deletingChild d) w)).
Proof. unfold deleteSubtree. by destruct (nodeParent w d). Qed.

(** C2: cache preemption in [readCacheFile].  When the cache file found in
    directory [d] names [d]'s path as its first directory and [d] is not
    the top level, the call returns [true]; a [CacheReadJob] bound to
    [d]'s parent, its reader rewound, is in the runnable queue; the
    parent's read state is [Reading]; every job of the queue bound inside
    [d] -- the running [LocalDirReadJob] among them -- is deleted and
    gone from both lists; and every node inside [d] is freed.  When the
    first directory differs, the call returns [false], the cache job with
    its reader is deleted again, tree and queue are as before, and
    [startReading] goes on by adding the cache file as an ordinary
    child. *)
Theorem readCacheFile_preempts (fs : FileSystem) (root d : ptr)
    (dn : FileInfo) (dirName cacheFileName : string) (w : World) :
  nodes w !! d = Some dn ->
  cr_ok (fs_cache fs (fullName dirName cacheFileName)) = true ->
  jobs w !! nextJob w = None ->
  (nextJob w ∉ q_queue w ++ q_blocked w) ->
  NoDup (q_queue w ++ q_blocked w) ->
  (forall up, parent dn = Some up -> isInSubtree w up d = false) ->
  let res := readCacheFile fs root d dirName cacheFileName w in
  (String.eqb (cr_firstDir (fs_cache fs (fullName dirName cacheFileName)))
              dirName = true ->
   parent dn ≠ Some root ->
     res.1 = Some true /\
     jobs res.2 !! nextJob w
       = Some (preemptingCacheJob fs w d (fullName dirName cacheFileName)) /\
     (nextJob w ∈ q_queue res.2) /\
     (forall up, parent dn = Some up ->
        readState <$> nodes res.2 !! up
          = (λ _, DirReading) <$> nodes w !! up) /\
     (forall j x, j ∈ q_queue w \/ j ∈ q_blocked w ->
        jobDir w j = Some x -> isInSubtree w x d = true ->
        jobs res.2 !! j = None /\ (j ∉ q_queue res.2) /\ (j ∉ q_blocked res.2)) /\
     (forall p, isInSubtree w p d = true -> nodes res.2 !! p = None)) /\
  (String.eqb (cr_firstDir (fs_cache fs (fullName dirName cacheFileName)))
              dirName = false ->
     res.1 = Some false /\
     jobs res.2 = jobs w /\ nodes res.2 = nodes w /\
     q_queue res.2 = q_queue w /\ q_blocked res.2 = q_blocked w /\
     events res.2 = events w /\
     forall excludeMatch findByPath treeDevice crossFileSystems st rest,
       cacheFileName = DEFAULT_CACHE_NAME ->
       fs_fstatat fs dirName cacheFileName = Some st ->
       S_ISDIR (st_mode st) = false ->
       readEntries fs excludeMatch findByPath treeDevice crossFileSystems root
         d dirName (cacheFileName :: rest) w
       = readEntries fs excludeMatch findByPath treeDevice crossFileSystems root
           d dirName rest (fileChildAdded d cacheFileName st res.2)).
Proof.
  intros Hd Hok Hfresh Hnew Hnodup Hup res. split.
  - intros Hfirst Htop.
    destruct (readCacheFile_preempt_eq fs root d dn dirName cacheFileName w
                Hd Hok Hfirst Htop)
      as (w5 & Heq & Hn5 & Hcj & Hj5 & Hq5 & Hb5 & _).
    subst res. rewrite Heq. cbn [fst snd].
    set (cj := nextJob w) in *.
    assert (Hl5 : forall q, parent <$> nodes w5 !! q = parent <$> nodes w !! q).
    { intros q. rewrite Hn5. destruct (decide _); [|done].
      by destruct (nodes w !! q). }
    assert (Hin5 : forall p, isInSubtree w5 p d = isInSubtree w p d)
      by (intros p; by apply isInSubtree_links).
    assert (Hnd5 : NoDup (q_queue w5 ++ q_blocked w5)).
    { rewrite Hq5, Hb5, <- app_assoc.
      apply NoDup_app in Hnodup as (Hq & Hdisj & Hb).
      apply NoDup_app. split; [done|]. split.
      - intros x Hx [->%list_elem_of_singleton|Hx']%elem_of_app.
        + apply Hnew, elem_of_app. by left.
        + by apply (Hdisj x).
      - apply NoDup_cons. split; [|done].
        intros Hx. apply Hnew, elem_of_app. by right. }
    assert (Hzcj : inKillZone w5 d (Some cj) cj = false).
    { unfold inKillZone. by destruct (decide _). }
    assert (Hz5 : forall j x, j ∈ q_queue w \/ j ∈ q_blocked w ->
              jobDir w j = Some x -> isInSubtree w x d = true ->
              inKillZone w5 d (Some cj) j = true).
    { intros j x Hj Hx Hins.
      assert (Hne : j ≠ cj).
      { intros ->. apply Hnew, elem_of_app. tauto. }
      unfold inKillZone, jobDir in *. rewrite (Hj5 j Hne).
      destruct (decide (Some cj = Some j)) as [[=]|_]; [congruence|].
      destruct (jobs w !! j) as [job|]; [|done]. rewrite Hx.
      by rewrite Hin5. }
    set (w6 := killAll (Some d) (Some cj) w5) in *.
    destruct (killAll_frame (Some d) (Some cj) w5) as (Hn6 & _).
    destruct (killAll_spec d (Some cj) w5) as [Hj6 Hl6].
    destruct (Hl6 Hnd5) as [Hq6 Hb6].
    destruct (killAll_lists d (Some cj) w5) as (_ & _ & Hk6).
    fold w6 in Hn6, Hj6, Hq6, Hb6, Hk6.
    assert (Hin6 : forall p, isInSubtree w6 p d = isInSubtree w p d).
    { intros p. rewrite <- Hin5. apply isInSubtree_links. intros q.
      by rewrite Hn6. }
    assert (Hcj6 : jobs w6 !! cj
                   = Some (preemptingCacheJob fs w d (fullName dirName cacheFileName))).
    { rewrite Hj6. destruct (decide _) as [[_ ?]|_]; [congruence | done]. }
    destruct (deleteSubtree_queue d w6) as (Ej & Eq & Eb). rewrite Ej, Eq, Eb.
    set (w6' := emit (deletingChild d) w6).
    destruct (deletingChildNotify_jobs d w6') as (Dkeep & Ddead & Dq & Db & Dk).
    assert (Hzcj' : inKillZone w6' d None cj = false).
    { unfold inKillZone, jobDir. simpl. rewrite Hcj6.
      unfold preemptingCacheJob, nodeParent. rewrite Hd. simpl.
      destruct (parent dn) as [up|] eqn:Ep; [|done].
      change (isInSubtree w6' up d) with (isInSubtree w6 up d).
      rewrite Hin6. by apply Hup. }
    split; [done|]. split; [|split; [|split; [|split]]].
    + rewrite (Dkeep cj Hzcj'). exact Hcj6.
    + apply Dk; [|done]. apply Hk6; [|done].
      rewrite Hq5. apply elem_of_app. right. left.
    + intros up Ep. rewrite deleteSubtree_nodes, Hin6, (Hup up Ep).
      assert (Hp6 : nodeParent w6 d = Some up).
      { unfold nodeParent. rewrite Hn6.
        pose proof (Hl5 d) as E. rewrite Hd in E. simpl in E.
        destruct (nodes w5 !! d) as [n5|]; [|done].
        injection E as ->. done. }
      rewrite Hp6. destruct (decide _) as [_|]; [|done].
      rewrite Hn6, Hn5. destruct (decide _) as [_|]; [|done].
      by destruct (nodes w !! up).
    + intros j x Hj Hx Hins.
      pose proof (Hz5 j x Hj Hx Hins) as Hz.
      assert (Hdead : jobs w6 !! j = None).
      { rewrite Hj6. destruct (decide _) as [_|Hn]; [done|].
        exfalso. apply Hn. split; [|done]. rewrite Hq5, Hb5.
        destruct Hj; [left; apply elem_of_app; by left | by right]. }
      split; [by apply Ddead|]. split.
      * intros Hx'%Dq. simpl in Hx'. rewrite Hq6 in Hx'.
        apply list_elem_of_filter in Hx' as [? _]. congruence.
      * intros Hx'%Db. simpl in Hx'. rewrite Hb6 in Hx'.
        apply list_elem_of_filter in Hx' as [? _]. congruence.
    + intros p Hp. by rewrite deleteSubtree_nodes, Hin6, Hp.
  - intros Hfirst.
    destruct (readCacheFile fs root d dirName cacheFileName w) as [r w1] eqn:E.
    assert (Hr : r = Some false).
    { revert E.
      unfold readCacheFile, new_CacheReadJob_file, newJob, jobReader,
        CacheReadJob_init. simpl.
      rewrite lookup_insert_eq. simpl. rewrite Hok, Hfirst. by intros [= <- _]. }
    subst r res. simpl.
    destruct (readCacheFile_false fs root d dirName cacheFileName w w1 E)
      as (Hn & _ & Hq & Hb & He & Hj & _).
    split; [done|]. split; [|split; [done|split; [done|split; [done|split; [done|]]]]].
    + rewrite Hj. by apply delete_id.
    + intros excludeMatch findByPath treeDevice crossFileSystems st rest
        -> Hst Hdir.
      simpl. rewrite Hst, Hdir. simpl. rewrite E. done.
Qed.

Lemma readCacheFile_preempts_witness :
  (readCacheFile subCacheFs 9%nat 1%nat "/t/sub" ".qdirstat.cache.gz"
     preemptWorld).1 = Some true /\
  jobs (readCacheFile subCacheFs 9%nat 1%nat "/t/sub" ".qdirstat.cache.gz"
          preemptWorld).2 !! 0%nat = None /\
  nodes (readCacheFile subCacheFs 9%nat 1%nat "/t/sub" ".qdirstat.cache.gz"
           preemptWorld).2 !! 2%nat = None.
Proof.
  assert (Hnew : nextJob preemptWorld
                   ∉ q_queue preemptWorld ++ q_blocked preemptWorld).
  { simpl. intros H.
    repeat (apply elem_of_cons in H as [H|H]; [discriminate|]).
    by apply elem_of_nil in H. }
  assert (Hnd : NoDup (q_queue preemptWorld ++ q_blocked preemptWorld)).
  { simpl. apply NoDup_ListNoDup. repeat constructor; simpl; intuition lia. }
  assert (Hup : forall up, parent (subNode "sub" "/t/sub" 0%nat [2%nat]) = Some up ->
                           isInSubtree preemptWorld up 1%nat = false).
  { intros up [= <-]. reflexivity. }
  destruct (readCacheFile_preempts subCacheFs 9%nat 1%nat
              (subNode "sub" "/t/sub" 0%nat [2%nat]) "/t/sub"
              ".qdirstat.cache.gz" preemptWorld
              eq_refl eq_refl eq_refl Hnew Hnd Hup) as [Hyes _].
  destruct Hyes as (H1 & _ & _ & _ & Hk & Hf); [reflexivity | discriminate |].
  split; [exact H1|]. split.
  - destruct (Hk 0%nat 1%nat) as [Hj _]; [left; left | reflexivity | reflexivity |].
    exact Hj.
  - apply Hf. reflexivity.
Defined.

(** ** More about the queue *)

Lemma delete_alter_same {A} (f : A -> A) (j : ptr) (m : gmap ptr A) :
  delete j (alter f j m) = delete j m.
Proof.
  apply map_eq. intros i. destruct (decide (i = j)) as [->|].
  - by rewrite !lookup_delete_eq.
  - by rewrite !lookup_delete_ne, lookup_alter_ne.
Qed.

(** X5: on an idle queue with nothing runnable and nothing blocked,
    enqueueing a job and its reporting completion bring lists and timer
    back to where they were; the two signals [startingReading] and
    [finished] are emitted, in this order, and the job is deleted. *)
Theorem enqueue_finish_roundtrip (j : ptr) (w : World) :
  q_queue w = [] -> q_blocked w = [] -> q_timer w = false ->
  let w' := jobFinishedNotify (Some j) (enqueue (Some j) w) in
  q_queue w' = [] /\ q_blocked w' = [] /\ q_timer w' = false /\
  emitted w w' = [startingReading; finished] /\
  jobs w' = delete j (jobs w) /\ nodes w' = nodes w.
Proof.
  destruct w as [ns nn js nj q b t ev]. simpl. intros -> -> ->.
  unfold jobFinishedNotify, emitted. simpl.
  case_decide; [|done]. simpl.
  repeat split; try done.
  - by case_decide.
  - rewrite <- app_assoc. by rewrite drop_app_length.
  - apply delete_alter_same.
Qed.

Lemma enqueue_finish_roundtrip_witness :
  emitted emptyWorld
    (jobFinishedNotify (Some 0%nat) (enqueue (Some 0%nat) emptyWorld))
  = [startingReading; finished].
Proof.
  destruct (enqueue_finish_roundtrip 0%nat emptyWorld eq_refl eq_refl eq_refl)
    as (_ & _ & _ & H & _).
  exact H.
Defined.

Lemma runOps_cons op ops w : runOps (op :: ops) w = runOps ops (runOp op w).
Proof. reflexivity. Qed.

Lemma finishInOrder_aux (q : list ptr) : forall w,
  q_queue w = q -> q ≠ [] -> q_blocked w = [] ->
  let w' := runOps ((λ j, OpJobFinishedNotify (Some j)) <$> q) w in
  q_queue w' = [] /\ q_timer w' = false /\
  events w' = events w ++ [finished] /\
  (forall j, j ∈ q -> jobs w' !! j = None) /\
  nodes w' = nodes w.
Proof.
  induction q as [|j rest IH]; intros w Hq Hne Hb; [done|].
  cbv zeta. rewrite fmap_cons, runOps_cons. simpl runOp.
  set (w1 := jobFinishedNotify (Some j) w).
  assert (Hq1 : q_queue w1 = rest).
  { subst w1. rewrite queue_jobFinishedNotify, Hq. simpl.
    by destruct (decide (j = j)). }
  assert (Hb1 : q_blocked w1 = []) by (subst w1; by rewrite blocked_jobFinishedNotify).
  assert (Hj1 : jobs w1 = delete j (jobs w)) by apply jobs_jobFinishedNotify.
  assert (He1 : events w1 = events w ++ if isEmpty rest then [finished] else []).
  { subst w1. rewrite events_jobFinishedNotify, Hq, Hb. simpl.
    destruct (decide (j = j)); [|done]. by rewrite andb_true_r. }
  assert (Hn1 : nodes w1 = nodes w) by apply nodes_jobFinishedNotify.
  destruct rest as [|j2 rest].
  - change (runOps _ w1) with w1. split; [done|]. split.
    { subst w1. unfold jobFinishedNotify.
      destruct w as [ns nn js nj q0 b t ev]. simpl in *. subst.
      simpl. by destruct (decide (j = j)). }
    split; [done|]. split; [|done].
    intros x [->|?%elem_of_nil]%elem_of_cons; [|done].
    rewrite Hj1. apply lookup_delete_eq.
  - destruct (IH w1 Hq1 ltac:(done) Hb1) as (G1 & G2 & G3 & G4 & G5).
    split; [done|]. split; [done|]. split.
    { rewrite G3, He1. simpl. by rewrite app_nil_r. }
    split; [|by rewrite G5].
    intros x Hx. apply elem_of_cons in Hx as [->|Hx]; [|by apply G4].
    assert (Hkeep : forall ops w0, jobs w0 !! j = None ->
              Forall (λ op, exists y, op = OpJobFinishedNotify (Some y)) ops ->
              jobs (runOps ops w0) !! j = None).
    { clear. induction ops as [|op ops IHo]; intros w0 H0 Hf; [done|].
      apply Forall_cons in Hf as [[y ->] Hf]. rewrite runOps_cons.
      apply IHo; [|done].
      simpl. rewrite jobs_jobFinishedNotify.
      destruct (decide (y = j)) as [->|];
        [apply lookup_delete_eq | by rewrite lookup_delete_ne]. }
    apply Hkeep.
    + rewrite Hj1. apply lookup_delete_eq.
    + apply Forall_forall. intros op [y [-> _]]%list_elem_of_fmap. eauto.
Qed.

(** X6: when nothing is blocked, the runnable jobs reporting completion
    one after the other, head first, end the scan: the queue is empty, the
    timer is stopped, every one of the jobs is deleted, and [finished] is
    emitted exactly once, by the last of them. *)
Theorem finishInOrder_emits_finished (w : World) :
  q_queue w ≠ [] -> q_blocked w = [] ->
  q_queue (finishInOrder w) = [] /\
  q_timer (finishInOrder w) = false /\
  emitted w (finishInOrder w) = [finished] /\
  (forall j, j ∈ q_queue w -> jobs (finishInOrder w) !! j = None).
Proof.
  intros Hne Hb.
  destruct (finishInOrder_aux (q_queue w) w eq_refl Hne Hb)
    as (H1 & H2 & H3 & H4 & _).
  repeat split; try done.
  by apply emitted_app.
Qed.

Lemma finishInOrder_emits_finished_witness :
  emitted (set_blocked (λ _, []) preemptWorld)
    (finishInOrder (set_blocked (λ _, []) preemptWorld)) = [finished].
Proof.
  destruct (finishInOrder_emits_finished (set_blocked (λ _, []) preemptWorld))
    as (_ & _ & H & _); [done | done | exact H].
Defined.

(** X7: [unblock] takes every occurrence of the job out of the blocked
    list, leaving the other blocked jobs in place, and appends the job to
    the runnable list with its queue pointer set; the timer runs
    afterwards, and [startingReading] is emitted exactly when it was idle
    before. *)
Theorem unblock_moves_job (j : ptr) (w : World) :
  q_queue (unblock j w) = q_queue w ++ [j] /\
  q_blocked (unblock j w) = filter (λ x, x ≠ j) (q_blocked w) /\
  (j ∉ q_blocked (unblock j w)) /\
  q_timer (unblock j w) = true /\
  (_queue <$> jobs (unblock j w) !! j) = ((λ _, true) <$> jobs w !! j) /\
  emitted w (unblock j w) = (if q_timer w then [] else [startingReading]).
Proof.
  unfold unblock. rewrite queue_enqueue, blocked_enqueue. simpl.
  split; [done|]. split; [done|]. split.
  { unfold removeAll. intros [? _]%list_elem_of_filter. done. }
  unfold emitted.
  destruct w as [ns nn js nj q b t ev]. simpl. destruct t; simpl.
  - rewrite lookup_alter_eq, drop_all. by destruct (js !! j).
  - rewrite lookup_alter_eq, drop_app_length. by destruct (js !! j).
Qed.

Lemma killAll_clears_subtree_witness :
  isInSubtree preemptWorld 3%nat 1%nat = false.
Proof.
  apply (killAll_clears_subtree 1%nat preemptWorld 2%nat
           (mkJob (Some 3%nat) false false (PkgReadJob 3%nat None [])) 3%nat).
  - right. left.
  - reflexivity.
  - reflexivity.
Defined.

Lemma crossingFileSystems_true_iff_witness :
  crossingFileSystems noMounts ""
    (subDirLinked 0%nat "m" otherDevStat tWorld) 0%nat 1%nat = true.
Proof.
  apply (crossingFileSystems_true_iff noMounts ""
           (subDirLinked 0%nat "m" otherDevStat tWorld) 0%nat 1%nat
           (withChildren (λ cs, cs ++ [1%nat]) tNode)
           (subDirNode 0%nat tNode "m" otherDevStat) eq_refl eq_refl).
  split; [done|]. left. reflexivity.
Defined.


Lemma deleteAll_spec (l : list ptr) : forall w,
  let w' := foldl (λ acc j, deleteJob j acc) w l in
  (forall x, jobs w' !! x = if decide (x ∈ l) then None else jobs w !! x) /\
  nodes w' = nodes w /\ q_queue w' = q_queue w /\ q_blocked w' = q_blocked w /\
  q_timer w' = q_timer w /\ events w' = events w.
Proof.
  induction l as [|j l IH]; intros w; simpl.
  - repeat split.
  - destruct (IH (deleteJob j w)) as (H1 & H2 & H3 & H4 & H5 & H6).
    repeat split; try done.
    intros x. rewrite H1. simpl.
    destruct (decide (x ∈ l)) as [Hin|Hn];
      destruct (decide (x ∈ j :: l)) as [Hin'|Hn']; try done.
    + exfalso. apply Hn'. by right.
    + apply elem_of_cons in Hin' as [->|?]; [apply lookup_delete_eq | done].
    + rewrite lookup_delete_ne; [done|]. intros ->. apply Hn'. left.
Qed.

(** X9: [clear] (and with it [abort]) deletes every job of the two lists
    and empties both, but neither stops the timer nor emits anything; so
    when a scan that is under way is aborted, the first job enqueued
    afterwards does not emit [startingReading]. *)
Theorem clear_keeps_timer (w : World) :
  q_queue (clear w) = [] /\ q_blocked (clear w) = [] /\
  (forall j, jobs (clear w) !! j
             = if decide (j ∈ q_queue w ++ q_blocked w) then None
               else jobs w !! j) /\
  q_timer (clear w) = q_timer w /\ events (clear w) = events w /\
  q_queue (abort w) = [] /\ q_blocked (abort w) = [] /\
  events (abort w) = events w /\
  (forall j, q_timer w = true ->
     emitted (abort w) (enqueue (Some j) (abort w)) = []).
Proof.
  assert (Hclear : forall w0,
    q_queue (clear w0) = [] /\ q_blocked (clear w0) = [] /\
    (forall j, jobs (clear w0) !! j
               = if decide (j ∈ q_queue w0 ++ q_blocked w0) then None
                 else jobs w0 !! j) /\
    q_timer (clear w0) = q_timer w0 /\ events (clear w0) = events w0).
  { intros w0. unfold clear.
    destruct (deleteAll_spec (q_queue w0) w0) as (H1 & _ & _ & _ & H5 & H6).
    set (w1 := foldl (λ acc j, deleteJob j acc) w0 (q_queue w0)) in *.
    destruct (deleteAll_spec (q_blocked w0) w1) as (G1 & _ & _ & _ & G5 & G6).
    simpl. repeat split; try congruence.
    intros j. rewrite G1, H1.
    destruct (decide (j ∈ q_blocked w0)), (decide (j ∈ q_queue w0)),
      (decide (j ∈ q_queue w0 ++ q_blocked w0)) as [Hin|Hn]; try done;
      try (exfalso; apply Hn; apply elem_of_app; tauto).
    apply elem_of_app in Hin as [?|?]; done. }
  assert (Hmarks : forall l w0,
    let mark := λ acc j, match jobDir acc j with
                         | Some d => setReadState DirAborted d acc
                         | None => acc
                         end in
    q_timer (foldl mark w0 l) = q_timer w0 /\
    events (foldl mark w0 l) = events w0).
  { induction l as [|j l IH]; intros w0; simpl; [done|].
    destruct (IH (match jobDir w0 j with
                  | Some d => setReadState DirAborted d w0
                  | None => w0
                  end)) as [-> ->].
    by destruct (jobDir w0 j). }
  destruct (Hclear w) as (H1 & H2 & H3 & H4 & H5).
  split; [done|]. split; [done|]. split; [done|]. split; [done|].
  split; [done|].
  unfold abort.
  set (wm := foldl _ (foldl _ w (q_queue w)) (q_blocked w)).
  assert (Hm : q_timer wm = q_timer w /\ events wm = events w).
  { subst wm. destruct (Hmarks (q_blocked w)
      (foldl (λ acc j, match jobDir acc j with
                       | Some d => setReadState DirAborted d acc
                       | None => acc
                       end) w (q_queue w))) as [-> ->].
    apply Hmarks. }
  destruct Hm as [Hmt Hme].
  destruct (Hclear wm) as (G1 & G2 & _ & G4 & G5).
  split; [done|]. split; [done|]. split; [congruence|].
  intros j Ht. apply emitted_app. rewrite events_enqueue, G4, Hmt, Ht.
  by rewrite app_nil_r.
Qed.

(** ** More about LocalDirReadJob *)







(** X12: the entry map never holds [.] or [..], and each of its items is
    an entry that [readdir] returned, under that entry's i-number. *)
Theorem buildEntryMap_no_dots (entries : list dirent) (ino : Z) (nm : string) :
  (ino, nm) ∈ buildEntryMap entries ->
  nm ≠ "." /\ nm ≠ ".." /\ mkDirent ino nm ∈ entries.
Proof.
  rewrite buildEntryMap_perm. unfold realEntries.
  intros [e [[= -> ->] He]]%list_elem_of_fmap.
  apply list_elem_of_filter in He as [[? ?] He].
  split; [done|]. split; [done|]. by destruct e.
Qed.

Lemma buildEntryMap_no_dots_witness :
  "b" ≠ "." /\ "b" ≠ ".." /\ mkDirent 5 "b" ∈ tEntries.
Proof.
  apply (buildEntryMap_no_dots tEntries 5 "b").
  vm_compute. right. left.
Defined.

(** X13: within one directory, different entry names give different full
    names (in the root directory too, where no second slash is put in
    front). *)
Theorem fullName_inj (dirName e1 e2 : string) :
  fullName dirName e1 = fullName dirName e2 -> e1 = e2.
Proof.
  unfold fullName. intros H.
  apply (inj (String.append _)) in H.
  by apply (inj (String.append "/")) in H.
Qed.

Lemma fullName_inj_witness : "a" = "a".
Proof. exact (fullName_inj "/" "a" "a" eq_refl). Defined.

(** X14: [handleMultiPkg] changes display names and the two multi flags
    only: base name, version and architecture of every package stay, and
    a package that is not in the list is not touched at all. *)
Theorem handleMultiPkg_only_names (_pkgList : list ptr)
    (heap : gmap ptr PkgInfo) (i : ptr) :
  pkgCore <$> handleMultiPkg _pkgList heap !! i = pkgCore <$> heap !! i /\
  ((i ∉ _pkgList) -> handleMultiPkg _pkgList heap !! i = heap !! i).
Proof.
  unfold handleMultiPkg. cbv zeta.
  rewrite (handleMultiPkg_keys _pkgList heap).
  split.
  - destruct (decide _); [|done].
    destruct (heap !! i); simpl; [|done].
    by rewrite (T_core _pkgList heap).
  - intros Hn. destruct (decide _) as [[? _]|]; done.
Qed.

(** X15: [processSubDir] always links the new directory as the last child
    of the directory being read.  It makes a job for it exactly when no
    exclude rule matches and either the child does not cross a file
    system boundary or crossing is allowed; the child then stays
    [Queued], and otherwise it is left [OnRequestOnly] with the queue and
    the jobs untouched. *)
Theorem processSubDir_job_iff (excludeMatch : string -> string -> bool)
    (findByPath : string -> option string) (treeDevice : string)
    (crossFileSystems : bool) (d : ptr) (dn : FileInfo)
    (dirName entryName : string) (st : stat) (w : World) :
  nodes w !! d = Some dn ->
  nodes w !! nextNode w = None ->
  let subDir := nextNode w in
  let w' := processSubDir excludeMatch findByPath treeDevice crossFileSystems
              d dirName entryName subDir (DirInfo_fromStat entryName st d w).2 in
  children <$> nodes w' !! d = Some (children dn ++ [subDir]) /\
  if subDirGetsJob (excludeMatch (fullName dirName entryName) entryName)
       (crossingFileSystems findByPath treeDevice
          (subDirLinked d entryName st w) d subDir)
       crossFileSystems
  then q_queue w' = q_queue w ++ [nextJob w] /\
       jobs w' !! nextJob w = Some (subDirJob subDir dn entryName) /\
       readState <$> nodes w' !! subDir = Some DirQueued
  else q_queue w' = q_queue w /\ jobs w' = jobs w /\
       readState <$> nodes w' !! subDir = Some DirOnRequestOnly.
Proof.
  intros Hd Hf subDir w'. split.
  - destruct (processSubDir_childInserted excludeMatch findByPath treeDevice
                crossFileSystems d dirName entryName st w
                (mk_is_Some _ _ Hd) Hf) as (_ & _ & _ & Hc).
    subst w' subDir. rewrite Hc, Hd. done.
  - unfold subDirGetsJob. subst w' subDir.
    destruct (excludeMatch (fullName dirName entryName) entryName) eqn:Hx;
      cbn [negb andb orb].
    + destruct (processSubDir_excluded excludeMatch findByPath treeDevice
                  crossFileSystems d dn dirName entryName st w Hd Hf Hx)
        as (-> & ? & ? & _). done.
    + destruct (crossingFileSystems _ _ _ _ _) eqn:Hcr; cbn [negb andb orb].
      * destruct (processSubDir_crossing excludeMatch findByPath treeDevice
                    crossFileSystems d dn dirName entryName st w Hd Hf Hx Hcr)
          as [Hyes Hno].
        destruct crossFileSystems.
        -- destruct (Hyes eq_refl) as (-> & ? & _ & ? & _). done.
        -- destruct (Hno eq_refl) as (-> & ? & ? & _). done.
      * destruct (processSubDir_not_crossing excludeMatch findByPath treeDevice
                    crossFileSystems d dn dirName entryName st w Hd Hf Hx Hcr)
          as (-> & ? & _ & ? & _). done.
Qed.

Lemma processSubDir_job_iff_witness :
  q_queue (processSubDir noExcludeRules noMounts "" false 0%nat "/t" "m" 1%nat
             (DirInfo_fromStat "m" otherDevStat 0%nat tWorld).2) = [].
Proof.
  destruct (processSubDir_job_iff noExcludeRules noMounts "" false 0%nat tNode
              "/t" "m" otherDevStat tWorld eq_refl eq_refl) as [_ H].
  destruct H as (H & _). exact H.
Defined.
